(** * NodeModal: path-addressed read, replace and rendering of JSON nodes

    A shallow embedding of [src/features/modals/NodeModal/index.tsx]:
    [normalizeNodeData], [parseJsonValue], [getValueByPath],
    [setValueByPath] and the [handleSave] callback of the modal, together
    with the parts of the JavaScript runtime they call ([Number],
    [isNaN], [String.prototype.toLowerCase], template-literal conversion,
    property lookup, object spread, [JSON.parse] and [JSON.stringify]).

    Conventions of the model.
    - A JavaScript string is a [string]: the sequence of its code units,
      restricted to the code units U+0000 .. U+00FF.
    - A JavaScript number is a [spec_float] at precision 53 and maximal
      exponent 1024, that is an IEEE 754 binary64 value with one NaN.
    - An object is the list of its own enumerable properties, in the order
      in which the runtime enumerates them (array indices in ascending
      order, then the other keys in order of creation).
    - Members inherited from the built-in prototypes ([constructor],
      [toString], the methods of arrays and strings) are not JSON data and
      are not part of the model: a key that is no own property reads
      [undefined]. The model is exact where every key read is an own
      property or an array index, which no built-in prototype provides.
      What is stated below about a read that finds nothing, or about
      [setValueByPath] returning, is stated for such keys, for paths
      present in the document, or with the return as a hypothesis.
    - Values are trees. Where the identity of objects matters, the same
      functions are given on a store of cells with addresses, and the two
      are shown to agree. *)

From Stdlib Require Import ZArith List String Ascii Bool Lia.
From Stdlib Require Import DecimalString DecimalPos DecimalN.
From Stdlib Require Import SpecFloat.
Import ListNotations.

Local Open Scope string_scope.
Local Open Scope Z_scope.

(** ** Characters and strings *)

Module Chars.

Definition code (c : ascii) : Z := Z.of_N (N_of_ascii c).
Definition of_code (z : Z) : ascii := ascii_of_N (Z.to_N z).

Definition quote : ascii := "034"%char.
Definition newline : ascii := "010"%char.
Definition backslash : ascii := "092"%char.

Definition is_digit (c : ascii) : bool := (48 <=? code c) && (code c <=? 57).
Definition digit_value (c : ascii) : Z := code c - 48.

(** WhiteSpace and LineTerminator code units below U+0100: TAB, LF, VT,
    FF, CR, SP and NBSP. *)
Definition is_white_space (c : ascii) : bool :=
  let n := code c in
  ((9 <=? n) && (n <=? 13)) || (n =? 32) || (n =? 160).

(** Value of a hexadecimal digit, if [c] is one. *)
Definition hex_value (c : ascii) : option Z :=
  let n := code c in
  if (48 <=? n) && (n <=? 57) then Some (n - 48)
  else if (97 <=? n) && (n <=? 102) then Some (n - 87)
  else if (65 <=? n) && (n <=? 70) then Some (n - 55)
  else None.

Definition hex_digit (z : Z) : ascii :=
  if z <? 10 then of_code (48 + z) else of_code (87 + z).

(** Unicode simple lower-case mapping on U+0000 .. U+00FF. *)
Definition to_lower (c : ascii) : ascii :=
  let n := code c in
  if (65 <=? n) && (n <=? 90) then of_code (n + 32)
  else if (192 <=? n) && (n <=? 222) && negb (n =? 215) then of_code (n + 32)
  else c.

End Chars.

Definition chars (s : string) : list ascii := list_ascii_of_string s.
Definition of_chars (l : list ascii) : string := string_of_list_ascii l.

(** [String.prototype.toLowerCase] *)
Fixpoint toLowerCase (s : string) : string :=
  match s with
  | EmptyString => EmptyString
  | String c rest => String (Chars.to_lower c) (toLowerCase rest)
  end.

Fixpoint repeat_string (n : nat) (s : string) : string :=
  match n with
  | O => ""
  | S n' => s ++ repeat_string n' s
  end.

(** [Array.prototype.join] on strings. *)
Fixpoint join (sep : string) (l : list string) : string :=
  match l with
  | [] => ""
  | [x] => x
  | x :: rest => x ++ sep ++ join sep rest
  end.

(** Decimal digits of a non-negative integer, without leading zeros. *)
Definition decimal (z : Z) : string := NilZero.string_of_uint (N.to_uint (Z.to_N z)).

(** ** Numbers *)

Definition number : Type := spec_float.

Module Double.

Definition prec : Z := 53.
Definition emax : Z := 1024.

Definition NaN : number := S754_nan.
Definition Infinity : number := S754_infinity false.
Definition zero : number := S754_zero false.

(** The number nearest to [m * 2 ^ e] (ties to even). *)
Definition of_binary (m e : Z) : number := binary_normalize prec emax m e false.

Definition of_Z (z : Z) : number := of_binary z 0.

Definition negate (x : number) : number := SFopp x.

(** Count of decimal digits of a positive integer; 0 for 0. *)
Definition digits10 (z : Z) : Z :=
  if z <=? 0 then 0 else Z.of_nat (String.length (decimal z)).

(** The number nearest to [m * 10 ^ e] for [m >= 0] (ties to even). A
    quotient is computed with 64 bits beyond the divisor and a sticky bit,
    which the rounding of [of_binary] then resolves. Magnitudes outside
    the range of binary64 are settled without computing the power. *)
Definition of_decimal (m e : Z) : number :=
  if m <=? 0 then zero
  else if 310 <? digits10 m + e then Infinity
  else if digits10 m + e <? -330 then zero
  else if 0 <=? e then of_binary (m * 10 ^ e) 0
  else
    let d := 10 ^ (- e) in
    let s := Z.log2 d + 65 in
    let q := Z.shiftl m s / d in
    let sticky := if Z.shiftl m s mod d =? 0 then 0 else 1 in
    of_binary (2 * q + sticky) (- s - 1).

Definition signed (negative : bool) (x : number) : number :=
  if negative then negate x else x.

End Double.

(** [isNaN] applied to a number. *)
Definition isNaN (n : number) : bool :=
  match n with
  | S754_nan => true
  | _ => false
  end.

(** ** [Number] applied to a string (StringToNumber) *)

Module StringToNumber.

Fixpoint drop_white_space (l : list ascii) : list ascii :=
  match l with
  | c :: rest => if Chars.is_white_space c then drop_white_space rest else l
  | [] => []
  end.

Definition trim (l : list ascii) : list ascii :=
  rev (drop_white_space (rev (drop_white_space l))).

(** Longest prefix of decimal digits, and what follows it. *)
Fixpoint take_digits (l : list ascii) : list ascii * list ascii :=
  match l with
  | c :: rest =>
      if Chars.is_digit c
      then let '(ds, tl) := take_digits rest in (c :: ds, tl)
      else ([], l)
  | [] => ([], [])
  end.

Definition digits_value (ds : list ascii) : Z :=
  fold_left (fun acc c => 10 * acc + Chars.digit_value c) ds 0.

(** Value of a literal in radix [radix], if every character is a digit of
    that radix and there is at least one. *)
Definition radix_value (radix : Z) (ds : list ascii) : option Z :=
  match ds with
  | [] => None
  | _ =>
      fold_left
        (fun acc c =>
           match acc, Chars.hex_value c with
           | Some a, Some d => if d <? radix then Some (radix * a + d) else None
           | _, _ => None
           end)
        ds (Some 0)
  end.

(** ExponentPart, optional: the decimal exponent it adds. *)
Definition exponent_part (l : list ascii) : option Z :=
  match l with
  | [] => Some 0
  | c :: rest =>
      if (Chars.code c =? 101) || (Chars.code c =? 69) then
        let '(negative, body) :=
          match rest with
          | "+"%char :: r => (false, r)
          | "-"%char :: r => (true, r)
          | _ => (false, rest)
          end in
        match take_digits body with
        | ((_ :: _) as ds, []) =>
            Some (if negative then - digits_value ds else digits_value ds)
        | _ => None
        end
      else None
  end.

(** StrUnsignedDecimalLiteral other than [Infinity]: mantissa and decimal
    exponent. *)
Definition unsigned_decimal (l : list ascii) : option (Z * Z) :=
  let '(int_part, after_int) := take_digits l in
  match after_int with
  | "."%char :: after_dot =>
      let '(frac_part, after_frac) := take_digits after_dot in
      match int_part, frac_part with
      | [], [] => None
      | _, _ =>
          match exponent_part after_frac with
          | Some e =>
              Some (digits_value (int_part ++ frac_part)%list,
                    e - Z.of_nat (List.length frac_part))
          | None => None
          end
      end
  | _ =>
      match int_part with
      | [] => None
      | _ =>
          match exponent_part after_int with
          | Some e => Some (digits_value int_part, e)
          | None => None
          end
      end
  end.

Definition unsigned_literal (negative : bool) (l : list ascii) : number :=
  if String.eqb (of_chars l) "Infinity" then Double.signed negative Double.Infinity
  else
    match unsigned_decimal l with
    | Some (m, e) => Double.signed negative (Double.of_decimal m e)
    | None => Double.NaN
    end.

Definition non_decimal (l : list ascii) : option number :=
  match l with
  | "0"%char :: p :: ds =>
      let radix :=
        match p with
        | "x"%char | "X"%char => Some 16
        | "o"%char | "O"%char => Some 8
        | "b"%char | "B"%char => Some 2
        | _ => None
        end in
      match radix with
      | Some r =>
          match radix_value r ds with
          | Some v => Some (Double.of_Z v)
          | None => Some Double.NaN
          end
      | None => None
      end
  | _ => None
  end.

Definition of_chars (l : list ascii) : number :=
  match trim l with
  | [] => Double.zero
  | "+"%char :: rest => unsigned_literal false rest
  | "-"%char :: rest => unsigned_literal true rest
  | body =>
      match non_decimal body with
      | Some n => n
      | None => unsigned_literal false body
      end
  end.

End StringToNumber.

(** [Number(value)] for a string [value]. *)
Definition Number (value : string) : number := StringToNumber.of_chars (chars value).

(** ** Number::toString in radix 10

    The shortest decimal digits [s] (with [k] digits) and exponent [n] with
    [s * 10 ^ (n - k)] converting back to the number, nearest to it when
    several exist, laid out as the language prescribes. *)

Module NumberToString.

(** [n] with [10 ^ (n - 1) <= num / den < 10 ^ n], for [num, den > 0]. *)
Definition magnitude (num den : Z) : Z :=
  let guess := Double.digits10 num - Double.digits10 den in
  let below (n : Z) : bool :=
    (* num / den < 10 ^ n *)
    if 0 <=? n then num <? den * 10 ^ n else num * 10 ^ (- n) <? den in
  if below guess then guess
  else if below (guess + 1) then guess + 1
  else guess + 2.

(** The candidate with [k] digits, if one converts back to [x]. *)
Definition candidate (x : number) (num den n k : Z) : option (Z * Z) :=
  let '(snum, sden) :=
    if 0 <=? k - n then (num * 10 ^ (k - n), den) else (num, den * 10 ^ (n - k)) in
  let lo := snum / sden in
  let hi := lo + 1 in
  let back (s : Z) : bool :=
    match x, Double.of_decimal s (n - k) with
    | S754_finite _ m e, S754_finite _ m' e' => Pos.eqb m m' && (e =? e')
    | _, _ => false
    end in
  let normal (s : Z) : Z * Z :=
    if s =? 10 ^ k then (10 ^ (k - 1), n + 1) else (s, n) in
  let lo_ok := (10 ^ (k - 1) <=? lo) && back lo in
  let hi_ok := back hi in
  match lo_ok, hi_ok with
  | false, false => None
  | true, false => Some (normal lo)
  | false, true => Some (normal hi)
  | true, true =>
      match 2 * snum ?= (2 * lo + 1) * sden with
      | Lt => Some (normal lo)
      | Gt => Some (normal hi)
      | Eq => Some (normal (if Z.even lo then lo else hi))
      end
  end.

Fixpoint shortest (fuel : nat) (x : number) (num den n k : Z) : Z * Z :=
  match fuel with
  | O => (0, 0)
  | S fuel' =>
      match candidate x num den n k with
      | Some r => r
      | None => shortest fuel' x num den n (k + 1)
      end
  end.

Definition zeros (n : Z) : string := repeat_string (Z.to_nat n) "0".

Definition layout (s n : Z) : string :=
  let ds := decimal s in
  let k := Z.of_nat (String.length ds) in
  if (k <=? n) && (n <=? 21) then ds ++ zeros (n - k)
  else if (0 <? n) && (n <=? 21) then
    substring 0 (Z.to_nat n) ds ++ "." ++ substring (Z.to_nat n) (Z.to_nat (k - n)) ds
  else if (-6 <? n) && (n <=? 0) then "0." ++ zeros (- n) ++ ds
  else
    let e := n - 1 in
    let exponent := (if e <? 0 then "e-" else "e+") ++ decimal (Z.abs e) in
    if k =? 1 then ds ++ exponent
    else substring 0 1 ds ++ "." ++ substring 1 (Z.to_nat (k - 1)) ds ++ exponent.

Definition of_positive (m : positive) (e : Z) : string :=
  let num := if 0 <=? e then Z.pos m * 2 ^ e else Z.pos m in
  let den := if 0 <=? e then 1 else 2 ^ (- e) in
  let n := magnitude num den in
  let '(s, n') := shortest 17 (S754_finite false m e) num den n 1 in
  layout s n'.

Definition of_number (x : number) : string :=
  match x with
  | S754_nan => "NaN"
  | S754_zero _ => "0"
  | S754_infinity false => "Infinity"
  | S754_infinity true => "-Infinity"
  | S754_finite false m e => of_positive m e
  | S754_finite true m e => "-" ++ of_positive m e
  end.

End NumberToString.

(** ** Values *)

Local Set Warnings "-register-all".

Inductive jsval : Type :=
  | VUndefined
  | VNull
  | VBoolean (b : bool)
  | VNumber (n : number)
  | VString (s : string)
  | VArray (elements : list jsval)
  | VObject (properties : list (string * jsval)).

(** What a [throw] carries. The message of an error raised by the runtime
    is the runtime's own; the model keeps what the error is about. *)
Inductive exn : Type :=
  | Error (message : string)
  | TypeError (base : jsval) (key : string)
  | SyntaxError (source : string).

Inductive result (A : Type) : Type :=
  | Return (a : A)
  | Throw (e : exn).

Arguments Return {A} a.
Arguments Throw {A} e.

Definition bind {A B : Type} (r : result A) (k : A -> result B) : result B :=
  match r with
  | Return a => k a
  | Throw e => Throw e
  end.

Notation "x <- r ;; k" := (bind r (fun x => k))
  (at level 61, r at next level, right associativity).

(** ToBoolean *)
Definition truthy (v : jsval) : bool :=
  match v with
  | VUndefined | VNull => false
  | VBoolean b => b
  | VNumber (S754_zero _) | VNumber S754_nan => false
  | VNumber _ => true
  | VString s => negb (String.eqb s "")
  | VArray _ | VObject _ => true
  end.

Definition nullish (v : jsval) : bool :=
  match v with
  | VUndefined | VNull => true
  | _ => false
  end.

(** [a || b] *)
Definition or_else (a b : jsval) : jsval := if truthy a then a else b.

(** ToString, as a template literal applies it. *)
Fixpoint ToString (v : jsval) : string :=
  match v with
  | VUndefined => "undefined"
  | VNull => "null"
  | VBoolean b => if b then "true" else "false"
  | VNumber n => NumberToString.of_number n
  | VString s => s
  | VArray elements =>
      join ","
        (map (fun e => match e with
                       | VUndefined | VNull => ""
                       | _ => ToString e
                       end) elements)
  | VObject _ => "[object Object]"
  end.

(** ** Property keys and own properties *)

(** A path segment, [string | number]. *)
Inductive segment : Type :=
  | Key (s : string)
  | Index (n : number).

(** ToPropertyKey *)
Definition ToPropertyKey (seg : segment) : string :=
  match seg with
  | Key s => s
  | Index n => NumberToString.of_number n
  end.

(** The array index a property key denotes: the key is the decimal form
    of an integer between 0 and 2^32 - 2. *)
Definition array_index (k : string) : option Z :=
  match chars k with
  | [] => None
  | cs =>
      if forallb Chars.is_digit cs then
        let n := StringToNumber.digits_value cs in
        if String.eqb (decimal n) k && (n <? 4294967295) then Some n else None
      else None
  end.

Section Properties.

Context {A : Type}.

Fixpoint lookup (k : string) (props : list (string * A)) : option A :=
  match props with
  | [] => None
  | (k', v) :: rest => if String.eqb k k' then Some v else lookup k rest
  end.

Fixpoint overwrite (k : string) (v : A) (props : list (string * A))
  : list (string * A) :=
  match props with
  | [] => []
  | (k', v') :: rest =>
      if String.eqb k k' then (k', v) :: rest else (k', v') :: overwrite k v rest
  end.

(** A new array-index key goes after the smaller array indices and before
    everything else. *)
Fixpoint insert_index (i : Z) (k : string) (v : A) (props : list (string * A))
  : list (string * A) :=
  match props with
  | [] => [(k, v)]
  | (k', v') :: rest =>
      match array_index k' with
      | Some j => if j <? i then (k', v') :: insert_index i k v rest
                  else (k, v) :: props
      | None => (k, v) :: props
      end
  end.

(** CreateDataProperty on an ordinary object: an existing key keeps its
    place, a new one takes its place in the enumeration order. *)
Definition define_property (props : list (string * A)) (k : string) (v : A)
  : list (string * A) :=
  match lookup k props with
  | Some _ => overwrite k v props
  | None =>
      match array_index k with
      | Some i => insert_index i k v props
      | None => (props ++ [(k, v)])%list
      end
  end.

Fixpoint indexed_from (i : Z) (l : list A) : list (string * A) :=
  match l with
  | [] => []
  | x :: rest => (decimal i, x) :: indexed_from (i + 1) rest
  end.

Definition element (l : list A) (i : Z) : option A :=
  nth_error l (Z.to_nat i).

End Properties.

(** The same keys, with [f] applied to the values. *)
Definition map_values {A B : Type} (f : A -> B) (props : list (string * A))
  : list (string * B) :=
  map (fun entry => (fst entry, f (snd entry))) props.

Definition properties : Type := list (string * jsval).

(** [obj[k] = v] on an object created by an object literal, while its
    prototype is [Object.prototype]. Assigning to [__proto__] reaches the
    accessor of [Object.prototype], which creates no own property. The
    accessor sets the prototype of the object when [v] is [null] or an
    object, and the prototype is not part of this model: the definition is
    exact for every key other than [__proto__], and for [__proto__] until
    a row has assigned [null] to it, after which the code creates an own
    property [__proto__] where this definition creates none. *)
Definition assign (props : properties) (k : string) (v : jsval) : properties :=
  if String.eqb k "__proto__" then props else define_property props k v.

Definition code_units (s : string) : list jsval :=
  map (fun c => VString (String c "")) (chars s).

(** The own enumerable properties that a spread [{...v}] copies. *)
Definition own_entries (v : jsval) : properties :=
  match v with
  | VObject props => props
  | VArray elements => indexed_from 0 elements
  | VString s => indexed_from 0 (code_units s)
  | _ => []
  end.

Definition indexed_get (l : list jsval) (k : string) : jsval :=
  match array_index k with
  | Some i =>
      match element l i with
      | Some v => v
      | None => VUndefined
      end
  | None =>
      if String.eqb k "length" then VNumber (Double.of_Z (Z.of_nat (List.length l)))
      else VUndefined
  end.

(** [v[k]] for a [v] that is neither [null] nor [undefined]: own
    properties of objects, elements and length of arrays, code units and
    length of strings. The prototype of [v] is not consulted: the
    definition is exact when [k] is an own property of [v] or an array
    index. For another key it answers [undefined], where the code finds
    the member of that name if a prototype of [v] has one, and fails if
    that member is an accessor that throws. *)
Definition get_property (v : jsval) (k : string) : jsval :=
  match v with
  | VObject props =>
      match lookup k props with
      | Some x => x
      | None => VUndefined
      end
  | VArray elements => indexed_get elements k
  | VString s => indexed_get (code_units s) k
  | _ => VUndefined
  end.

(** [v?.[seg]] *)
Definition optional_get (v : jsval) (seg : segment) : jsval :=
  if nullish v then VUndefined else get_property v (ToPropertyKey seg).

(** [v[seg]] *)
Definition get (v : jsval) (seg : segment) : result jsval :=
  if nullish v then Throw (TypeError v (ToPropertyKey seg))
  else Return (get_property v (ToPropertyKey seg)).

(** ** [JSON.stringify(value, null, space)] *)

Module Stringify.

Definition escape (c : ascii) : string :=
  let n := Chars.code c in
  if n =? 34 then String Chars.backslash (String Chars.quote "")
  else if n =? 92 then String Chars.backslash (String Chars.backslash "")
  else if n =? 8 then String Chars.backslash "b"
  else if n =? 9 then String Chars.backslash "t"
  else if n =? 10 then String Chars.backslash "n"
  else if n =? 12 then String Chars.backslash "f"
  else if n =? 13 then String Chars.backslash "r"
  else if n <? 32 then
    String Chars.backslash
      (String "u" (String "0" (String "0"
        (String (Chars.hex_digit (n / 16)) (String (Chars.hex_digit (n mod 16)) "")))))
  else String c "".

Fixpoint escape_all (s : string) : string :=
  match s with
  | EmptyString => ""
  | String c rest => escape c ++ escape_all rest
  end.

(** QuoteJSONString *)
Definition quote (s : string) : string :=
  String Chars.quote (escape_all s ++ String Chars.quote "").

Definition number (n : number) : string :=
  match n with
  | S754_nan | S754_infinity _ => "null"
  | _ => NumberToString.of_number n
  end.

Definition line_break : string := String Chars.newline "".

(** A container with the given brackets around its already serialised
    parts, at indentation [indent] with gap [gap]. *)
Definition wrap (opening closing gap indent : string) (parts : list string)
  : string :=
  match parts with
  | [] => opening ++ closing
  | _ =>
      if String.eqb gap "" then opening ++ join "," parts ++ closing
      else
        opening ++ line_break ++ indent ++ gap
        ++ join ("," ++ line_break ++ indent ++ gap) parts
        ++ line_break ++ indent ++ closing
  end.

Definition member (gap k serialised : string) : string :=
  quote k ++ (if String.eqb gap "" then ":" else ": ") ++ serialised.

(** SerializeJSONProperty; [None] is [undefined]. *)
Fixpoint serialize (gap indent : string) (v : jsval) : option string :=
  match v with
  | VUndefined => None
  | VNull => Some "null"
  | VBoolean b => Some (if b then "true" else "false")
  | VNumber n => Some (number n)
  | VString s => Some (quote s)
  | VArray elements =>
      Some (wrap "[" "]" gap indent
              (map (fun e => match serialize gap (indent ++ gap) e with
                             | Some t => t
                             | None => "null"
                             end) elements))
  | VObject props =>
      Some (wrap "{" "}" gap indent
              (flat_map (fun p => match serialize gap (indent ++ gap) (snd p) with
                                  | Some t => [member gap (fst p) t]
                                  | None => []
                                  end) props))
  end.

End Stringify.

(** [JSON.stringify(v, null, space)] for a numeric [space]; [None] is
    [undefined]. *)
Definition JSON_stringify (v : jsval) (space : Z) : option string :=
  Stringify.serialize (repeat_string (Z.to_nat (Z.min 10 space)) " ") "" v.

(** ** [JSON.parse(text)]

    A text whose strings leave U+0000 .. U+00FF through a [\u] escape
    denotes a document that has no counterpart among the strings of this
    model: [JSON_parse] refuses it with a [SyntaxError], where the code
    returns that document. The stored texts below are to be read as texts
    without such an escape. *)

Module Parse.

Definition is_ws (c : ascii) : bool :=
  let n := Chars.code c in
  (n =? 32) || (n =? 9) || (n =? 10) || (n =? 13).

Fixpoint skip_ws (l : list ascii) : list ascii :=
  match l with
  | c :: rest => if is_ws c then skip_ws rest else l
  | [] => []
  end.

Definition simple_escape (c : ascii) : option ascii :=
  let n := Chars.code c in
  if (n =? 34) || (n =? 92) || (n =? 47) then Some c
  else if n =? 98 then Some (Chars.of_code 8)
  else if n =? 102 then Some (Chars.of_code 12)
  else if n =? 110 then Some (Chars.of_code 10)
  else if n =? 114 then Some (Chars.of_code 13)
  else if n =? 116 then Some (Chars.of_code 9)
  else None.

Definition hex4 (a b c d : ascii) : option Z :=
  match Chars.hex_value a, Chars.hex_value b, Chars.hex_value c, Chars.hex_value d with
  | Some x, Some y, Some z, Some w => Some (((x * 16 + y) * 16 + z) * 16 + w)
  | _, _, _, _ => None
  end.

Definition cons_char (c : ascii) (r : option (list ascii * list ascii))
  : option (list ascii * list ascii) :=
  match r with
  | Some (s, tl) => Some (c :: s, tl)
  | None => None
  end.

(** The characters of a string literal after its opening quote, and what
    follows the closing quote. *)
Fixpoint string_body (l : list ascii) : option (list ascii * list ascii) :=
  match l with
  | [] => None
  | c :: rest =>
      if Chars.code c =? 34 then Some ([], rest)
      else if Chars.code c =? 92 then
        match rest with
        | [] => None
        | e :: rest' =>
            match simple_escape e with
            | Some d => cons_char d (string_body rest')
            | None =>
                if Chars.code e =? 117 then
                  match rest' with
                  | h1 :: h2 :: h3 :: h4 :: rest'' =>
                      match hex4 h1 h2 h3 h4 with
                      | Some n =>
                          if n <? 256 then cons_char (Chars.of_code n) (string_body rest'')
                          else None
                      | None => None
                      end
                  | _ => None
                  end
                else None
            end
        end
      else if Chars.code c <? 32 then None
      else cons_char c (string_body rest)
  end.

(** A number literal at the head of [l], and what follows it. *)
Definition number_literal (l : list ascii) : option (number * list ascii) :=
  let '(negative, l1) :=
    match l with
    | "-"%char :: r => (true, r)
    | _ => (false, l)
    end in
  let '(int_part, l2) := StringToNumber.take_digits l1 in
  let leading_zero :=
    match int_part with
    | "0"%char :: _ :: _ => true
    | _ => false
    end in
  match int_part with
  | [] => None
  | _ =>
      if leading_zero then None
      else
        let fraction :=
          match l2 with
          | "."%char :: r =>
              match StringToNumber.take_digits r with
              | ([], _) => None
              | (ds, tl) => Some (ds, tl)
              end
          | _ => Some ([], l2)
          end in
        match fraction with
        | None => None
        | Some (frac_part, l3) =>
            let exponent :=
              match l3 with
              | c :: r =>
                  if (Chars.code c =? 101) || (Chars.code c =? 69) then
                    let '(minus, body) :=
                      match r with
                      | "+"%char :: b => (false, b)
                      | "-"%char :: b => (true, b)
                      | _ => (false, r)
                      end in
                    match StringToNumber.take_digits body with
                    | ([], _) => None
                    | (ds, tl) =>
                        let e := StringToNumber.digits_value ds in
                        Some (if minus then - e else e, tl)
                    end
                  else Some (0, l3)
              | [] => Some (0, l3)
              end in
            match exponent with
            | None => None
            | Some (e, l4) =>
                let m := StringToNumber.digits_value (int_part ++ frac_part)%list in
                Some (Double.signed negative
                        (Double.of_decimal m (e - Z.of_nat (List.length frac_part))),
                      l4)
            end
        end
  end.

Definition literal (word : string) (l : list ascii) : option (list ascii) :=
  let w := chars word in
  if String.eqb (of_chars (firstn (List.length w) l)) word
  then Some (skipn (List.length w) l) else None.

Fixpoint value (fuel : nat) (l : list ascii) : option (jsval * list ascii) :=
  match fuel with
  | O => None
  | S fuel' =>
      match skip_ws l with
      | [] => None
      | c :: rest =>
          let n := Chars.code c in
          if n =? 123 then
            match skip_ws rest with
            | "}"%char :: tl => Some (VObject [], tl)
            | _ => members fuel' [] rest
            end
          else if n =? 91 then
            match skip_ws rest with
            | "]"%char :: tl => Some (VArray [], tl)
            | _ => elements fuel' [] rest
            end
          else if n =? 34 then
            match string_body rest with
            | Some (s, tl) => Some (VString (of_chars s), tl)
            | None => None
            end
          else if n =? 116 then
            option_map (fun tl => (VBoolean true, tl)) (literal "true" (c :: rest))
          else if n =? 102 then
            option_map (fun tl => (VBoolean false, tl)) (literal "false" (c :: rest))
          else if n =? 110 then
            option_map (fun tl => (VNull, tl)) (literal "null" (c :: rest))
          else
            option_map (fun r => (VNumber (fst r), snd r)) (number_literal (c :: rest))
      end
  end
with elements (fuel : nat) (acc : list jsval) (l : list ascii)
  : option (jsval * list ascii) :=
  match fuel with
  | O => None
  | S fuel' =>
      match value fuel' l with
      | Some (v, tl) =>
          match skip_ws tl with
          | ","%char :: tl' => elements fuel' (acc ++ [v])%list tl'
          | "]"%char :: tl' => Some (VArray (acc ++ [v])%list, tl')
          | _ => None
          end
      | None => None
      end
  end
with members (fuel : nat) (acc : properties) (l : list ascii)
  : option (jsval * list ascii) :=
  match fuel with
  | O => None
  | S fuel' =>
      match skip_ws l with
      | c :: rest =>
          if Chars.code c =? 34 then
            match string_body rest with
            | Some (k, tl) =>
                match skip_ws tl with
                | ":"%char :: tl' =>
                    match value fuel' tl' with
                    | Some (v, tl'') =>
                        let acc' := define_property acc (of_chars k) v in
                        match skip_ws tl'' with
                        | ","%char :: tl3 => members fuel' acc' tl3
                        | "}"%char :: tl3 => Some (VObject acc', tl3)
                        | _ => None
                        end
                    | None => None
                    end
                | _ => None
                end
            | None => None
            end
          else None
      | [] => None
      end
  end.

End Parse.

Definition JSON_parse (text : string) : result jsval :=
  match Parse.value (2 * String.length text + 2) (chars text) with
  | Some (v, tl) =>
      match Parse.skip_ws tl with
      | [] => Return v
      | _ => Throw (SyntaxError text)
      end
  | None => Throw (SyntaxError text)
  end.

(** ** The node description ([types/graph]) *)

Module Graph.

(** Modelled from the spec: the kinds of a row, declared in [types/graph],
    which is not among the sources. A row's type is one of [string],
    [number], [boolean], [null], [array] and [object]. *)
Inductive row_type : Type :=
  | string_type
  | number_type
  | boolean_type
  | null_type
  | array_type
  | object_type.

(** Modelled from the spec: a row of a node, declared in [types/graph],
    which is not among the sources. The key is optional; the value is a
    scalar, or left out for a row of a container type. *)
Record NodeRow : Type := {
  key : option string;
  value : jsval;
  type : row_type
}.

(** Modelled from the spec: the node handed over by the graph view, with
    its optional path and its rows. *)
Record NodeData : Type := {
  path : option (list segment);
  text : list NodeRow
}.

Definition is_array (t : row_type) : bool :=
  match t with array_type => true | _ => false end.

Definition is_object (t : row_type) : bool :=
  match t with object_type => true | _ => false end.

(** ToBoolean of a key: a key that is present and not empty. *)
Definition truthy_key (k : option string) : bool :=
  match k with
  | Some s => negb (String.eqb s "")
  | None => false
  end.

End Graph.

Import Graph.

(** ** The functions of the modal *)

(** The body of the [forEach] of [normalizeNodeData], on the object under
    construction. *)
Definition add_row (obj : properties) (row : NodeRow) : properties :=
  if negb (is_array (type row)) && negb (is_object (type row)) then
    match key row with
    | Some k => if truthy_key (key row) then assign obj k (value row) else obj
    | None => obj
    end
  else obj.

(** [normalizeNodeData]; [None] as argument is a missing row list. *)
Definition normalizeNodeData (nodeRows : option (list NodeRow)) : option string :=
  match nodeRows with
  | None | Some [] => Some "{}"
  | Some ((first :: _) as rows) =>
      if (List.length rows =? 1)%nat && negb (truthy_key (key first))
      then Some (ToString (value first))
      else JSON_stringify (VObject (fold_left add_row rows [])) 2
  end.

(** [parseJsonValue] *)
Definition parseJsonValue (value : string) (type : string) : result jsval :=
  if String.eqb type "boolean" then
    Return (VBoolean (String.eqb (toLowerCase value) "true"))
  else if String.eqb type "number" then
    let num := Number value in
    if isNaN num then Throw (Error "Invalid number")
    else Return (VNumber num)
  else if String.eqb type "null" then
    Return VNull
  else Return (VString value).

(** [getValueByPath] *)
Definition getValueByPath (obj : jsval) (path : list segment) : jsval :=
  fold_left (fun current key => optional_get current key) path obj.

(** [{ ...obj, [key]: v }] *)
Definition spread_with (obj : jsval) (key : segment) (v : jsval) : jsval :=
  VObject (define_property (own_entries obj) (ToPropertyKey key) v).

(** [setValueByPath] *)
Fixpoint setValueByPath (obj : jsval) (path : list segment) (value : jsval)
  : result jsval :=
  match path with
  | [] => Return value
  | key :: remaining =>
      match remaining with
      | [] => Return (spread_with obj key value)
      | _ =>
          child <- get obj key ;;
          updated <- setValueByPath (or_else child (VObject [])) remaining value ;;
          Return (spread_with obj key updated)
      end
  end.

(** ** The save callback

    [handleSave] reads the selected node, the stored document text and the
    edit fields, and acts on the file store, the toasts, the editing flag
    and the modal. These are gathered in a [World]; a computation is a
    function from a world to an outcome and a world. *)

Module Modal.

(** The text a toast shows: a literal of the source, or the message the
    runtime gave to an error it raised. *)
Inductive message : Type :=
  | Literal (s : string)
  | RuntimeMessage (e : exn).

(** [error.message] *)
Definition message_of (e : exn) : message :=
  match e with
  | Error m => Literal m
  | _ => RuntimeMessage e
  end.

Inductive toast : Type :=
  | toast_error (m : message)
  | toast_success (m : message).

Record World : Type := {
  selectedNode : option NodeData;       (* useGraph *)
  stored_json : string;                 (* what getJson() returns *)
  editValue : string;
  editType : string;
  isEditing : bool;
  written : list (option string * bool); (* calls of setContents, oldest first *)
  toasts : list toast;                  (* oldest first *)
  closed : bool                         (* onClose was called *)
}.

Definition M (A : Type) : Type := World -> result A * World.

Definition ret {A : Type} (a : A) : M A := fun w => (Return a, w).

Definition bindM {A B : Type} (m : M A) (k : A -> M B) : M B :=
  fun w =>
    match m w with
    | (Return a, w') => k a w'
    | (Throw e, w') => (Throw e, w')
    end.

Definition lift {A : Type} (r : result A) : M A := fun w => (r, w).

Definition try_catch {A : Type} (body : M A) (handler : exn -> M A) : M A :=
  fun w =>
    match body w with
    | (Return a, w') => (Return a, w')
    | (Throw e, w') => handler e w'
    end.

Definition read {A : Type} (field : World -> A) : M A := fun w => (Return (field w), w).

Definition getJson : M string := read stored_json.

Definition show (t : toast) : M unit :=
  fun w =>
    (Return tt,
     {| selectedNode := selectedNode w; stored_json := stored_json w;
        editValue := editValue w; editType := editType w;
        isEditing := isEditing w; written := written w;
        toasts := (toasts w ++ [t])%list; closed := closed w |}).

Definition setContents (contents : option string) (hasChanges : bool) : M unit :=
  fun w =>
    (Return tt,
     {| selectedNode := selectedNode w; stored_json := stored_json w;
        editValue := editValue w; editType := editType w;
        isEditing := isEditing w;
        written := (written w ++ [(contents, hasChanges)])%list;
        toasts := toasts w; closed := closed w |}).

Definition setIsEditing (b : bool) : M unit :=
  fun w =>
    (Return tt,
     {| selectedNode := selectedNode w; stored_json := stored_json w;
        editValue := editValue w; editType := editType w;
        isEditing := b; written := written w;
        toasts := toasts w; closed := closed w |}).

Definition onClose : M unit :=
  fun w =>
    (Return tt,
     {| selectedNode := selectedNode w; stored_json := stored_json w;
        editValue := editValue w; editType := editType w;
        isEditing := isEditing w; written := written w;
        toasts := toasts w; closed := true |}).

Notation "x <~ m ;; k" := (bindM m (fun x => k))
  (at level 61, m at next level, right associativity).
Notation "m ;;; k" := (bindM m (fun _ => k))
  (at level 61, right associativity).

(** [nodeData?.path] *)
Definition path_of (nodeData : option NodeData) : option (list segment) :=
  match nodeData with
  | Some d => path d
  | None => None
  end.

(** The body of the [try] of [handleSave]. *)
Definition save_body : M unit :=
  nodeData <~ read selectedNode ;;
  match path_of nodeData with
  | None => show (toast_error (Literal "Cannot edit root node"))
  | Some node_path =>
      jsonStr <~ getJson ;;
      json <~ lift (JSON_parse jsonStr) ;;
      value <~ read editValue ;;
      type <~ read editType ;;
      newValue <~ lift (parseJsonValue value type) ;;
      updatedJson <~ lift (setValueByPath json node_path newValue) ;;
      let newContents := JSON_stringify updatedJson 2 in
      setContents newContents true ;;;
      show (toast_success (Literal "Node updated successfully!")) ;;;
      setIsEditing false ;;;
      onClose
  end.

(** [handleSave] *)
Definition handleSave : M unit :=
  try_catch save_body (fun error => show (toast_error (message_of error))).

(** [isRootNode] of the component. *)
Definition isRootNode (nodeData : NodeData) : bool :=
  match path nodeData with
  | None => true
  | Some p => (List.length p =? 0)%nat
  end.

End Modal.

(** ** The store: objects with identity

    The values above are trees. To speak of the identity of objects, the
    operations of [getValueByPath] and [setValueByPath] are given a second
    time on a store: an object or an array is a cell of the store, and a
    value refers to it by its address. A cell is created complete and is
    not written again: the functions of the modal assign to an object only
    inside the literal that creates it. *)

Module Store.

Inductive sval : Type :=
  | SUndefined
  | SNull
  | SBoolean (b : bool)
  | SNumber (n : number)
  | SString (s : string)
  | SRef (address : nat).

Inductive cell : Type :=
  | ObjectCell (props : list (string * sval))
  | ArrayCell (elements : list sval).

Definition store : Type := list cell.

(** A new cell, at the first free address. *)
Definition alloc (st : store) (c : cell) : store * sval :=
  ((st ++ [c])%list, SRef (List.length st)).

Definition truthy (v : sval) : bool :=
  match v with
  | SUndefined | SNull => false
  | SBoolean b => b
  | SNumber (S754_zero _) | SNumber S754_nan => false
  | SNumber _ => true
  | SString s => negb (String.eqb s "")
  | SRef _ => true
  end.

Definition nullish (v : sval) : bool :=
  match v with
  | SUndefined | SNull => true
  | _ => false
  end.

Definition code_units (s : string) : list sval :=
  map (fun c => SString (String c "")) (chars s).

(** The own enumerable properties that a spread [{...v}] copies. *)
Definition own_entries (st : store) (v : sval) : list (string * sval) :=
  match v with
  | SRef a =>
      match nth_error st a with
      | Some (ObjectCell props) => props
      | Some (ArrayCell elements) => indexed_from 0 elements
      | None => []
      end
  | SString s => indexed_from 0 (code_units s)
  | _ => []
  end.

Definition indexed_get (l : list sval) (k : string) : sval :=
  match array_index k with
  | Some i =>
      match element l i with
      | Some v => v
      | None => SUndefined
      end
  | None =>
      if String.eqb k "length" then SNumber (Double.of_Z (Z.of_nat (List.length l)))
      else SUndefined
  end.

(** [v[k]] on the store: the own properties of the cell, as on trees, and
    with the same limits, the prototype of [v] is not consulted. *)
Definition get_property (st : store) (v : sval) (k : string) : sval :=
  match v with
  | SRef a =>
      match nth_error st a with
      | Some (ObjectCell props) =>
          match lookup k props with
          | Some x => x
          | None => SUndefined
          end
      | Some (ArrayCell elements) => indexed_get elements k
      | None => SUndefined
      end
  | SString s => indexed_get (code_units s) k
  | _ => SUndefined
  end.

(** [v?.[seg]] *)
Definition optional_get (st : store) (v : sval) (seg : segment) : sval :=
  if nullish v then SUndefined else get_property st v (ToPropertyKey seg).

(** The tree of a value that refers to no cell. *)
Definition scalar (v : sval) : jsval :=
  match v with
  | SUndefined | SRef _ => VUndefined
  | SNull => VNull
  | SBoolean b => VBoolean b
  | SNumber n => VNumber n
  | SString s => VString s
  end.

(** [v[seg]] *)
Definition get (st : store) (v : sval) (seg : segment) : result sval :=
  if nullish v then Throw (TypeError (scalar v) (ToPropertyKey seg))
  else Return (get_property st v (ToPropertyKey seg)).

(** [getValueByPath] *)
Definition getValueByPath (st : store) (obj : sval) (path : list segment) : sval :=
  fold_left (fun current key => optional_get st current key) path obj.

(** [{ ...obj, [key]: v }]: a new cell. *)
Definition spread_with (st : store) (obj : sval) (key : segment) (v : sval)
  : store * sval :=
  alloc st (ObjectCell (define_property (own_entries st obj) (ToPropertyKey key) v)).

(** [a || {}]: the empty object is a new cell. *)
Definition or_empty_object (st : store) (a : sval) : store * sval :=
  if truthy a then (st, a) else alloc st (ObjectCell []).

(** [setValueByPath] *)
Fixpoint setValueByPath (st : store) (obj : sval) (path : list segment) (value : sval)
  : result (store * sval) :=
  match path with
  | [] => Return (st, value)
  | key :: remaining =>
      match remaining with
      | [] => Return (spread_with st obj key value)
      | _ =>
          child <- get st obj key ;;
          updated <- setValueByPath (fst (or_empty_object st child))
                       (snd (or_empty_object st child)) remaining value ;;
          Return (spread_with (fst updated) obj key (snd updated))
      end
  end.

(** The own property [k] of a container. *)
Definition own (st : store) (v : sval) (k : string) : option sval :=
  match v with
  | SRef a =>
      match nth_error st a with
      | Some (ObjectCell props) => lookup k props
      | Some (ArrayCell elements) =>
          match array_index k with
          | Some i => element elements i
          | None => None
          end
      | None => None
      end
  | _ => None
  end.

(** The path [p] is present in the document [D] of the store. *)
Fixpoint present (st : store) (D : sval) (p : list segment) : bool :=
  match p with
  | [] => true
  | seg :: rest =>
      match own st D (ToPropertyKey seg) with
      | Some child => present st child rest
      | None => false
      end
  end.

(** *** From the store to trees *)

(** The tree of a value, given the trees [trees] of the cells. *)
Definition tree_of_value (trees : list jsval) (v : sval) : jsval :=
  match v with
  | SRef a => nth a trees VUndefined
  | _ => scalar v
  end.

Definition tree_of_cell (trees : list jsval) (c : cell) : jsval :=
  match c with
  | ObjectCell props => VObject (map_values (tree_of_value trees) props)
  | ArrayCell elements => VArray (map (tree_of_value trees) elements)
  end.

(** The trees of the cells of a store, in the order of the addresses: a
    cell refers to cells created before it. *)
Definition trees (st : store) : list jsval :=
  fold_left (fun done c => (done ++ [tree_of_cell done c])%list) st [].

Definition tree (st : store) (v : sval) : jsval := tree_of_value (trees st) v.

(** The value refers to a cell below the address [n], if to any. *)
Definition below (n : nat) (v : sval) : bool :=
  match v with
  | SRef a => (a <? n)%nat
  | _ => true
  end.

Definition cell_below (n : nat) (c : cell) : bool :=
  match c with
  | ObjectCell props => forallb (fun entry => below n (snd entry)) props
  | ArrayCell elements => forallb (below n) elements
  end.

(** Every cell refers to cells created before it only. *)
Fixpoint ordered_from (n : nat) (st : list cell) : bool :=
  match st with
  | [] => true
  | c :: rest => cell_below n c && ordered_from (S n) rest
  end.

Definition ordered (st : store) : bool := ordered_from 0 st.

End Store.

(** ** Notions used to state the properties *)

(** The own property [k] of a container: an entry of an object, or an
    element of an array. Scalars have none. *)
Definition own (v : jsval) (k : string) : option jsval :=
  match v with
  | VObject props => lookup k props
  | VArray elements =>
      match array_index k with
      | Some i => element elements i
      | None => None
      end
  | _ => None
  end.

(** The path [p] is present in the document [D]: every segment names an
    own property of the container reached so far. *)
Fixpoint present (D : jsval) (p : list segment) : bool :=
  match p with
  | [] => true
  | seg :: rest =>
      match own D (ToPropertyKey seg) with
      | Some child => present child rest
      | None => false
      end
  end.

Definition same_key (a b : segment) : bool :=
  String.eqb (ToPropertyKey a) (ToPropertyKey b).

(** The path [q] leaves the spine of [p]: after a common prefix, shorter
    than [p], it takes another key. *)
Fixpoint off_spine (p q : list segment) : bool :=
  match p, q with
  | a :: p', b :: q' => if same_key a b then off_spine p' q' else true
  | _, _ => false
  end.

(** Two code units are equal up to the case of the letters A to Z. *)
Definition same_ignoring_case (c d : ascii) : bool :=
  let letter (n : Z) : bool :=
    ((65 <=? n) && (n <=? 90)) || ((97 <=? n) && (n <=? 122)) in
  Ascii.eqb c d
  || (letter (Chars.code c) && letter (Chars.code d)
      && (Chars.code c mod 32 =? Chars.code d mod 32)).

(** Comparison of two texts that ignores the case of letters. *)
Fixpoint equal_ignoring_case (s t : string) : bool :=
  match s, t with
  | EmptyString, EmptyString => true
  | String c s', String d t' => same_ignoring_case c d && equal_ignoring_case s' t'
  | _, _ => false
  end.

Definition lower_letters : list ascii := chars "abcdefghijklmnopqrstuvwxyz".

Definition lower_letter (d : ascii) : bool := existsb (Ascii.eqb d) lower_letters.



(** A row that becomes an entry of the content view: its type is neither
    array nor object, and its key is present and not empty. *)
Definition contributes (row : NodeRow) : bool :=
  negb (is_array (type row)) && negb (is_object (type row)) && truthy_key (key row).

Definition key_text (row : NodeRow) : string :=
  match key row with
  | Some k => k
  | None => ""
  end.

(** The mapping from key to value of the rows that contribute, in the
    order of the rows. *)
Definition entries_in_row_order (rows : list NodeRow) : properties :=
  map (fun row => (key_text row, value row)) (filter contributes rows).

Fixpoint distinct_keys (props : properties) : bool :=
  match props with
  | [] => true
  | (k, _) :: rest =>
      negb (existsb (String.eqb k) (map fst rest)) && distinct_keys rest
  end.

(** A key that an object keeps in order of creation: not an array index,
    and not [__proto__]. *)
Definition plain_key (k : string) : bool :=
  match array_index k with
  | Some _ => false
  | None => negb (String.eqb k "__proto__")
  end.

Definition plain_keys (props : properties) : bool :=
  forallb (fun entry => plain_key (fst entry)) props && distinct_keys props.

(** The content view in the words of the specification: "{}" for no row,
    the value alone for a single row without a key, and otherwise the
    mapping of the rows in row order, as JSON indented by two spaces. *)
Definition content_view (rows : list NodeRow) : option string :=
  match rows with
  | [] => Some "{}"
  | [row] =>
      if truthy_key (key row)
      then JSON_stringify (VObject (entries_in_row_order rows)) 2
      else Some (ToString (value row))
  | _ => JSON_stringify (VObject (entries_in_row_order rows)) 2
  end.

(** The rows are rendered as an object: there is a row, and a single row
    has a key. *)
Definition multi_row (rows : list NodeRow) : bool :=
  match rows with
  | [] => false
  | [row] => truthy_key (key row)
  | _ => true
  end.

Definition keyed (row : NodeRow) : bool := truthy_key (key row).

Definition scalar_row (k : string) (v : jsval) (t : row_type) : NodeRow :=
  {| key := Some k; value := v; type := t |}.

(** The steps of a save that can fail, in their order: decoding the
    stored text, coercing the edited text, replacing at the path. *)
Definition save_steps (stored value type : string) (node_path : list segment)
  : result jsval :=
  json <- JSON_parse stored ;;
  newValue <- parseJsonValue value type ;;
  setValueByPath json node_path newValue.

(** A double quote, for the texts of the examples. *)
Definition dq : string := String Chars.quote "".

(** ** The rest of the modal: the path display, the edit draft, the
    controls *)

(** [Array.prototype.join] with a separator. *)
Definition array_join (sep : string) (l : list jsval) : string :=
  join sep
    (map (fun e => match e with
                   | VUndefined | VNull => ""
                   | _ => ToString e
                   end) l).

(** The [segments] of [jsonPathToString]: a number as it is, a string
    between double quotes. *)
Definition path_segments (p : list segment) : list jsval :=
  map (fun seg => match seg with
                  | Index n => VNumber n
                  | Key s => VString (dq ++ s ++ dq)
                  end) p.

(** [jsonPathToString] *)
Definition jsonPathToString (path : option (list segment)) : string :=
  match path with
  | None | Some [] => "$"
  | Some p => "$[" ++ array_join "][" (path_segments p) ++ "]"
  end.

(** One segment between its brackets, as the path display shows it. *)
Definition bracketed (seg : segment) : string :=
  match seg with
  | Index n => "[" ++ NumberToString.of_number n ++ "]"
  | Key s => "[" ++ dq ++ s ++ dq ++ "]"
  end.

Module Editor.

(** The three edit fields of the component. *)
Record Draft : Type := {
  editKey : string;
  editValue : string;
  editType : string
}.

(** The literal of a row type. *)
Definition type_name (t : row_type) : string :=
  match t with
  | string_type => "string"
  | number_type => "number"
  | boolean_type => "boolean"
  | null_type => "null"
  | array_type => "array"
  | object_type => "object"
  end.

(** [v?.toString() || ""] *)
Definition text_or_empty (v : jsval) : string :=
  if nullish v then "" else ToString v.

(** The effect that seeds the edit fields from the first row of the
    selected node; without a node or without rows the fields stay. *)
Definition seed (nodeData : option NodeData) (d : Draft) : Draft :=
  match nodeData with
  | Some node =>
      match text node with
      | firstRow :: _ =>
          {| editKey := match key firstRow with Some k => k | None => "" end;
             editValue := text_or_empty (value firstRow);
             editType := type_name (type firstRow) |}
      | [] => d
      end
  | None => d
  end.

(** What the component shows. *)
Inductive screen : Type :=
  | Nothing
  | EditForm
  | ContentView (content : option string) (jsonPath : string) (editButton : bool).

(** The return value of the component, without its layout. *)
Definition render (w : Modal.World) : screen :=
  match Modal.selectedNode w with
  | None => Nothing
  | Some nodeData =>
      if Modal.isEditing w && negb (Modal.isRootNode nodeData) then EditForm
      else ContentView (normalizeNodeData (Some (text nodeData)))
                       (jsonPathToString (path nodeData))
                       (negb (Modal.isRootNode nodeData))
  end.

(** The four types offered by the edit form. *)
Inductive offered_type : Type :=
  | offer_string
  | offer_number
  | offer_boolean
  | offer_null.

Definition offered_name (t : offered_type) : string :=
  match t with
  | offer_string => "string"
  | offer_number => "number"
  | offer_boolean => "boolean"
  | offer_null => "null"
  end.

(** The controls of the component that have a handler. *)
Inductive control : Type :=
  | CloseEdit                      (* the close button of the edit form *)
  | ChangeValue (typed : string)   (* the value input *)
  | PickType (t : offered_type)    (* one of the type buttons *)
  | Cancel
  | Save
  | CloseView                      (* the close button of the content view *)
  | EditNode
  | Dismiss.                       (* onClose of the modal itself *)

Definition setEditValue (s : string) : Modal.M unit :=
  fun w =>
    (Return tt,
     {| Modal.selectedNode := Modal.selectedNode w;
        Modal.stored_json := Modal.stored_json w;
        Modal.editValue := s; Modal.editType := Modal.editType w;
        Modal.isEditing := Modal.isEditing w; Modal.written := Modal.written w;
        Modal.toasts := Modal.toasts w; Modal.closed := Modal.closed w |}).

Definition setEditType (t : string) : Modal.M unit :=
  fun w =>
    (Return tt,
     {| Modal.selectedNode := Modal.selectedNode w;
        Modal.stored_json := Modal.stored_json w;
        Modal.editValue := Modal.editValue w; Modal.editType := t;
        Modal.isEditing := Modal.isEditing w; Modal.written := Modal.written w;
        Modal.toasts := Modal.toasts w; Modal.closed := Modal.closed w |}).

(** The handler of a control. *)
Definition handler (c : control) : Modal.M unit :=
  match c with
  | CloseEdit => Modal.setIsEditing false
  | ChangeValue typed => setEditValue typed
  | PickType t => setEditType (offered_name t)
  | Cancel => Modal.setIsEditing false
  | Save => Modal.handleSave
  | CloseView => Modal.onClose
  | EditNode => Modal.setIsEditing true
  | Dismiss => Modal.onClose
  end.

(** The control is on the screen. *)
Definition shown (s : screen) (c : control) : bool :=
  match s, c with
  | Nothing, _ => false
  | _, Dismiss => true
  | EditForm, (CloseEdit | ChangeValue _ | PickType _ | Cancel | Save) => true
  | ContentView _ _ _, CloseView => true
  | ContentView _ _ editButton, EditNode => editButton
  | _, _ => false
  end.

(** Using a control: the world after its handler, if the control is on
    the screen. *)
Definition use (c : control) (w : Modal.World) : option Modal.World :=
  if shown (render w) c then Some (snd (handler c w)) else None.

End Editor.

(** The value of the last row that contributes the key [k]. *)
Definition last_value (k : string) (rows : list NodeRow) : option jsval :=
  fold_left
    (fun found row =>
       if contributes row && String.eqb (key_text row) k then Some (value row)
       else found)
    rows None.

(** A scalar that [JSON.stringify] writes as it is. *)
Definition json_scalar (v : jsval) : bool :=
  match v with
  | VNull | VBoolean _ | VString _ => true
  | VNumber n => negb (isNaN n)
  | _ => false
  end.

(** The value of a row agrees with a type of the edit form that is a
    string, a boolean or null. *)
Definition plainly_typed (row : NodeRow) : bool :=
  match type row, value row with
  | string_type, VString _ => true
  | boolean_type, VBoolean _ => true
  | null_type, VNull => true
  | _, _ => false
  end.

(** ** Own properties: what is read after a definition *)

Section DefineProperty.

Context {A : Type}.

Variables (k : string) (v : A).

Lemma lookup_overwrite_same (props : list (string * A)) (x : A) :
  lookup k props = Some x -> lookup k (overwrite k v props) = Some v.
Proof.
  induction props as [| [k' v'] rest IH]; simpl; [discriminate |].
  destruct (String.eqb k k') eqn:E; simpl; rewrite E; auto.
Qed.

Lemma lookup_overwrite_other (k' : string) (props : list (string * A)) :
  k' <> k -> lookup k' (overwrite k v props) = lookup k' props.
Proof.
  intros Hne.
  induction props as [| [k0 v0] rest IH]; simpl; [reflexivity |].
  destruct (String.eqb k k0) eqn:E; simpl.
  - apply String.eqb_eq in E. subst k0.
    destruct (String.eqb k' k) eqn:E'; [| reflexivity].
    apply String.eqb_eq in E'. contradiction.
  - rewrite IH. reflexivity.
Qed.

Lemma lookup_insert_index_same (i : Z) (props : list (string * A)) :
  lookup k props = None -> lookup k (insert_index i k v props) = Some v.
Proof.
  induction props as [| [k0 v0] rest IH]; simpl; intros Hnone.
  - rewrite String.eqb_refl. reflexivity.
  - destruct (String.eqb k k0) eqn:E; [discriminate |].
    destruct (array_index k0) as [j |]; [destruct (j <? i) |];
      simpl; rewrite ?E, ?String.eqb_refl; auto.
Qed.

Lemma lookup_insert_index_other (i : Z) (k' : string) (props : list (string * A)) :
  k' <> k -> lookup k' (insert_index i k v props) = lookup k' props.
Proof.
  intros Hne. apply String.eqb_neq in Hne.
  induction props as [| [k0 v0] rest IH]; simpl.
  - rewrite Hne. reflexivity.
  - destruct (array_index k0) as [j |]; [destruct (j <? i) |];
      simpl; rewrite ?Hne, ?IH; reflexivity.
Qed.

Lemma lookup_app_same (props : list (string * A)) :
  lookup k props = None -> lookup k (props ++ [(k, v)])%list = Some v.
Proof.
  induction props as [| [k0 v0] rest IH]; simpl; intros Hnone.
  - rewrite String.eqb_refl. reflexivity.
  - destruct (String.eqb k k0); [discriminate | auto].
Qed.

Lemma lookup_app_other (k' : string) (props : list (string * A)) :
  k' <> k -> lookup k' (props ++ [(k, v)])%list = lookup k' props.
Proof.
  intros Hne. apply String.eqb_neq in Hne.
  induction props as [| [k0 v0] rest IH]; simpl.
  - rewrite Hne. reflexivity.
  - rewrite IH. reflexivity.
Qed.

(** The key just defined reads back the value it was given. *)
Lemma lookup_define_same (props : list (string * A)) :
  lookup k (define_property props k v) = Some v.
Proof.
  unfold define_property.
  destruct (lookup k props) as [x |] eqn:E.
  - eapply lookup_overwrite_same; eauto.
  - destruct (array_index k).
    + apply lookup_insert_index_same; assumption.
    + apply lookup_app_same; assumption.
Qed.

(** Every other key reads as before. *)
Lemma lookup_define_other (k' : string) (props : list (string * A)) :
  k' <> k -> lookup k' (define_property props k v) = lookup k' props.
Proof.
  intros Hne. unfold define_property.
  destruct (lookup k props); [| destruct (array_index k)].
  - apply lookup_overwrite_other; assumption.
  - apply lookup_insert_index_other; assumption.
  - apply lookup_app_other; assumption.
Qed.

End DefineProperty.

Lemma getValueByPath_cons (obj : jsval) (seg : segment) (rest : list segment) :
  getValueByPath obj (seg :: rest) = getValueByPath (optional_get obj seg) rest.
Proof. reflexivity. Qed.


(** Reading the head segment of a spread: the value given to it. *)
Lemma optional_get_spread_same (obj : jsval) (seg : segment) (x : jsval) :
  optional_get (spread_with obj seg x) seg = x.
Proof.
  unfold optional_get, spread_with. simpl.
  rewrite lookup_define_same. reflexivity.
Qed.

(** Reading another segment of a spread: the own entry of the source. *)
Lemma optional_get_spread_other (obj : jsval) (seg seg' : segment) (x : jsval) :
  same_key seg seg' = false ->
  optional_get (spread_with obj seg x) seg'
  = match lookup (ToPropertyKey seg') (own_entries obj) with
    | Some y => y
    | None => VUndefined
    end.
Proof.
  unfold same_key, optional_get, spread_with. intros Hne. simpl.
  rewrite lookup_define_other; [reflexivity |].
  apply String.eqb_neq in Hne. congruence.
Qed.

Lemma setValueByPath_deeper (obj : jsval) (key next : segment)
    (more : list segment) (value : jsval) :
  setValueByPath obj (key :: next :: more) value
  = (child <- get obj key ;;
     updated <- setValueByPath (or_else child (VObject [])) (next :: more) value ;;
     Return (spread_with obj key updated)).
Proof. reflexivity. Qed.

(** What [setValueByPath] returns reads back the value at the path. *)
Lemma setValueByPath_read_back (path : list segment) :
  forall (obj value updated : jsval),
    setValueByPath obj path value = Return updated ->
    getValueByPath updated path = value.
Proof.
  induction path as [| key remaining IH]; intros obj value updated H.
  - simpl in H. injection H as <-. reflexivity.
  - destruct remaining as [| next more].
    + simpl in H. injection H as <-.
      rewrite getValueByPath_cons, optional_get_spread_same. reflexivity.
    + rewrite setValueByPath_deeper in H.
      destruct (get obj key) as [child |]; cbn [bind] in H; [| discriminate].
      destruct (setValueByPath (or_else child (VObject [])) (next :: more) value)
        as [inner |] eqn:E; cbn [bind] in H; [| discriminate].
      injection H as <-.
      rewrite getValueByPath_cons, optional_get_spread_same.
      eapply IH. exact E.
Qed.

Lemma present_not_nullish (D : jsval) (seg : segment) (rest : list segment) :
  present D (seg :: rest) = true -> nullish D = false.
Proof. destruct D; simpl; congruence. Qed.

(** What [setValueByPath] returns on a non-empty path is a spread of the
    container with the head segment rebound. *)
Lemma setValueByPath_shape (obj : jsval) (key : segment) (rest : list segment)
    (value updated : jsval) :
  setValueByPath obj (key :: rest) value = Return updated ->
  exists x, updated = spread_with obj key x.
Proof.
  destruct rest as [| next more]; intros H.
  - simpl in H. injection H as <-. eexists. reflexivity.
  - rewrite setValueByPath_deeper in H.
    destruct (get obj key) as [child |]; cbn [bind] in H; [| discriminate].
    destruct (setValueByPath (or_else child (VObject [])) (next :: more) value)
      as [inner |]; cbn [bind] in H; [| discriminate].
    injection H as <-. eexists. reflexivity.
Qed.

(** ** Decimal keys of array elements *)

Lemma N_to_uint_nonnil (n : N) : N.to_uint n <> Decimal.Nil.
Proof.
  destruct n as [| p]; simpl.
  - discriminate.
  - apply DecimalPos.Unsigned.to_uint_nonnil.
Qed.

Lemma decimal_eq_iff (a b : Z) : decimal a = decimal b <-> Z.to_N a = Z.to_N b.
Proof.
  unfold decimal. split; intros H; [| now rewrite H].
  apply DecimalN.Unsigned.to_uint_inj.
  assert (E : NilZero.uint_of_string (NilZero.string_of_uint (N.to_uint (Z.to_N a)))
              = NilZero.uint_of_string (NilZero.string_of_uint (N.to_uint (Z.to_N b))))
    by now rewrite H.
  rewrite !NilZero.usu in E by apply N_to_uint_nonnil.
  now injection E.
Qed.

Lemma lookup_indexed_from {A : Type} (l : list A) :
  forall (j i : Z),
    0 <= j ->
    lookup (decimal i) (indexed_from j l)
    = if (Z.to_N i <? Z.to_N j)%N then None
      else nth_error l (N.to_nat (Z.to_N i - Z.to_N j)).
Proof.
  induction l as [| x rest IH]; intros j i Hj; simpl.
  - destruct (Z.to_N i <? Z.to_N j)%N; [reflexivity |].
    now destruct (N.to_nat (Z.to_N i - Z.to_N j)).
  - destruct (String.eqb (decimal i) (decimal j)) eqn:E.
    + apply String.eqb_eq, decimal_eq_iff in E. rewrite E.
      rewrite N.ltb_irrefl, N.sub_diag. reflexivity.
    + assert (Hne : Z.to_N i <> Z.to_N j).
      { intros C. apply decimal_eq_iff in C. rewrite C, String.eqb_refl in E.
        discriminate. }
      rewrite IH by lia.
      replace (Z.to_N (j + 1)) with (Z.to_N j + 1)%N by lia.
      destruct (Z.to_N i <? Z.to_N j)%N eqn:L.
      * apply N.ltb_lt in L.
        replace (Z.to_N i <? Z.to_N j + 1)%N with true
          by (symmetry; apply N.ltb_lt; lia).
        reflexivity.
      * apply N.ltb_ge in L.
        replace (Z.to_N i <? Z.to_N j + 1)%N with false
          by (symmetry; apply N.ltb_ge; lia).
        replace (N.to_nat (Z.to_N i - Z.to_N j))
          with (S (N.to_nat (Z.to_N i - (Z.to_N j + 1)))) by lia.
        reflexivity.
Qed.

Lemma array_index_decimal (k : string) (i : Z) :
  array_index k = Some i -> k = decimal i.
Proof.
  unfold array_index. destruct (chars k); [discriminate |].
  destruct (forallb Chars.is_digit (a :: l)); [| discriminate].
  destruct (String.eqb (decimal (StringToNumber.digits_value (a :: l))) k) eqn:E;
    simpl; [| discriminate].
  destruct (_ <? _); [| discriminate].
  intros H. injection H as <-. apply String.eqb_eq in E. now symmetry.
Qed.

(** An element of an array is the own entry of its index that a spread
    copies. *)
Lemma lookup_array_entries {A : Type} (elements : list A) (k : string) (i : Z) :
  array_index k = Some i ->
  lookup k (indexed_from 0 elements) = element elements i.
Proof.
  intros H. apply array_index_decimal in H. subst k.
  rewrite lookup_indexed_from by lia. simpl.
  unfold element. rewrite N.sub_0_r, Z_N_nat.
  now destruct (Z.to_N i).
Qed.

Lemma own_lookup_entries (D : jsval) (k : string) (x : jsval) :
  own D k = Some x -> lookup k (own_entries D) = Some x.
Proof.
  destruct D as [| | b | n | s | elements | props]; simpl; try discriminate.
  - destruct (array_index k) as [i |] eqn:E; [| discriminate].
    intros H. rewrite (lookup_array_entries _ _ _ E). exact H.
  - auto.
Qed.

Lemma own_get_property (D : jsval) (k : string) (x : jsval) :
  own D k = Some x -> get_property D k = x.
Proof.
  destruct D as [| | b | n | s | elements | props]; simpl; try discriminate.
  - unfold indexed_get. destruct (array_index k) as [i |]; [| discriminate].
    now intros ->.
  - now intros ->.
Qed.

Lemma own_container (D : jsval) (k : string) (x : jsval) :
  own D k = Some x -> nullish D = false /\ truthy D = true.
Proof. destruct D; simpl; try discriminate; auto. Qed.

Lemma optional_get_own (D : jsval) (seg : segment) (x : jsval) :
  own D (ToPropertyKey seg) = Some x -> optional_get D seg = x.
Proof.
  intros H. unfold optional_get.
  destruct (own_container _ _ _ H) as [-> _].
  now apply own_get_property.
Qed.

Lemma present_truthy (D : jsval) (q : list segment) :
  present D q = true -> q <> [] -> truthy D = true.
Proof.
  destruct q as [| seg rest]; [congruence |]. simpl. intros H _.
  destruct (own D (ToPropertyKey seg)) eqn:E; [| discriminate].
  now destruct (own_container _ _ _ E).
Qed.

(** [setValueByPath] returns on every path that is present in the
    document: every read on the way is the read of an own property, and
    what is read is a container. *)
Lemma setValueByPath_returns (path : list segment) :
  forall (obj value : jsval),
    present obj path = true ->
    exists updated, setValueByPath obj path value = Return updated.
Proof.
  induction path as [| key remaining IH]; intros obj value Hp.
  - eexists. reflexivity.
  - destruct remaining as [| next more].
    + eexists. reflexivity.
    + rewrite setValueByPath_deeper. unfold get.
      rewrite (present_not_nullish _ _ _ Hp). cbn [bind].
      cbn [present] in Hp.
      destruct (own obj (ToPropertyKey key)) as [child |] eqn:Eown; [| discriminate].
      rewrite (own_get_property _ _ _ Eown).
      unfold or_else. rewrite (present_truthy child (next :: more) Hp) by discriminate.
      destruct (IH child value Hp) as [inner E].
      rewrite E. cbn [bind]. eexists. reflexivity.
Qed.

(** ** Replace, then read *)

(** C3. Round trip: for every document [D], every path [p] present in [D]
    and every value [v], [setValueByPath] returns a document, and reading
    the path [p] back from that document yields exactly [v]. *)
Theorem setValueByPath_then_getValueByPath (D : jsval) (p : list segment) (v : jsval) :
  present D p = true ->
  exists updated,
    setValueByPath D p v = Return updated /\ getValueByPath updated p = v.
Proof.
  intros Hp.
  destruct (setValueByPath_returns p D v Hp) as [updated E].
  exists updated. split; [exact E |].
  eapply setValueByPath_read_back. exact E.
Qed.

Lemma setValueByPath_then_getValueByPath_witness :
  let D := VObject [("customer", VObject [("name", VString "Ada")])] in
  let p := [Key "customer"; Key "name"] in
  present D p = true
  /\ exists updated,
       setValueByPath D p (VString "Grace") = Return updated
       /\ getValueByPath updated p = VString "Grace".
Proof.
  intros D p. split; [reflexivity |].
  apply (setValueByPath_then_getValueByPath D p (VString "Grace")). reflexivity.
Defined.

Lemma off_spine_nonempty (p q : list segment) :
  off_spine p q = true -> p <> [] /\ q <> [].
Proof. destruct p, q; simpl; try discriminate. split; discriminate. Qed.

(** On trees: every subtree of the input at a path [q] that is present and
    leaves the spine of [p] is read from what [setValueByPath] returns at
    the same path, equal to the subtree of the input. The same is shown
    below on the store, where it is the identity of the objects. *)
Theorem setValueByPath_keeps_off_spine (p : list segment) :
  forall (D : jsval) (q : list segment) (v updated : jsval),
    off_spine p q = true ->
    present D q = true ->
    setValueByPath D p v = Return updated ->
    getValueByPath updated q = getValueByPath D q.
Proof.
  induction p as [| a p' IH]; intros D q v updated Hoff Hq Hset; [discriminate |].
  destruct q as [| b q']; [discriminate |].
  simpl in Hoff, Hq.
  destruct (own D (ToPropertyKey b)) as [child |] eqn:Eown; [| discriminate].
  destruct (own_container _ _ _ Eown) as [Hnn _].
  rewrite (getValueByPath_cons D b q'), (optional_get_own _ _ _ Eown).
  destruct (same_key a b) eqn:Ekey.
  - (* the two paths share this segment *)
    apply String.eqb_eq in Ekey.
    destruct (off_spine_nonempty _ _ Hoff) as [Hp' Hq'].
    destruct p' as [| next more]; [congruence |].
    rewrite setValueByPath_deeper in Hset. unfold get in Hset.
    rewrite Hnn in Hset. cbn [bind] in Hset.
    rewrite Ekey, (own_get_property _ _ _ Eown) in Hset.
    unfold or_else in Hset. rewrite (present_truthy _ _ Hq Hq') in Hset.
    destruct (setValueByPath child (next :: more) v) as [inner |] eqn:Einner;
      cbn [bind] in Hset; [| discriminate].
    injection Hset as <-.
    rewrite getValueByPath_cons.
    replace (optional_get (spread_with D a inner) b) with inner;
      [exact (IH child q' v inner Hoff Hq Einner) |].
    unfold optional_get, spread_with. simpl.
    rewrite Ekey, lookup_define_same. reflexivity.
  - (* the path [q] leaves the spine here *)
    destruct (setValueByPath_shape _ _ _ _ _ Hset) as [x ->].
    rewrite getValueByPath_cons, (optional_get_spread_other _ _ _ _ Ekey).
    rewrite (own_lookup_entries _ _ _ Eown). reflexivity.
Qed.

Lemma setValueByPath_keeps_off_spine_witness :
  let D := VObject [("customer",
                     VObject [("name", VString "Ada");
                              ("tags", VArray [VString "x"; VString "y"])])] in
  let p := [Key "customer"; Key "name"] in
  let q := [Key "customer"; Key "tags"] in
  let updated := VObject [("customer",
                           VObject [("name", VString "Grace");
                                    ("tags", VArray [VString "x"; VString "y"])])] in
  off_spine p q = true
  /\ present D q = true
  /\ setValueByPath D p (VString "Grace") = Return updated
  /\ getValueByPath updated q = getValueByPath D q.
Proof.
  intros D p q updated. split; [reflexivity |]. split; [reflexivity |].
  split; [reflexivity |].
  apply (setValueByPath_keeps_off_spine p D q (VString "Grace") updated); reflexivity.
Defined.

(** ** Coercion of the edited text *)

Lemma to_lower_same_ignoring_case (c : ascii) :
  forallb (fun d => Bool.eqb (Ascii.eqb (Chars.to_lower c) d) (same_ignoring_case c d))
          lower_letters = true.
Proof. destruct c as [[] [] [] [] [] [] [] []]; vm_compute; reflexivity. Qed.

Lemma to_lower_eqb (c d : ascii) :
  lower_letter d = true ->
  Ascii.eqb (Chars.to_lower c) d = same_ignoring_case c d.
Proof.
  intros Hd. apply existsb_exists in Hd. destruct Hd as [d' [Hin Heq]].
  apply Ascii.eqb_eq in Heq. subst d'.
  pose proof (to_lower_same_ignoring_case c) as H.
  rewrite forallb_forall in H. apply Bool.eqb_prop. apply H. exact Hin.
Qed.

(** Lower-casing and comparing with a word in lower-case letters is the
    comparison that ignores case. *)
Lemma toLowerCase_eqb (t : string) :
  forallb lower_letter (chars t) = true ->
  forall s, String.eqb (toLowerCase s) t = equal_ignoring_case s t.
Proof.
  induction t as [| d t' IH]; intros Ht s.
  - destruct s; reflexivity.
  - destruct s as [| c s']; [reflexivity |].
    simpl in Ht. apply andb_prop in Ht. destruct Ht as [Hd Ht'].
    simpl. rewrite (to_lower_eqb c d Hd), (IH Ht' s').
    destruct (same_ignoring_case c d); reflexivity.
Qed.

(** C6. For every text, coercion with declared type [boolean] returns
    [true] if and only if the text, compared without regard to case,
    equals "true"; every other text yields [false]; it never fails. *)
Theorem parseJsonValue_boolean (value : string) :
  parseJsonValue value "boolean"
  = Return (VBoolean (equal_ignoring_case value "true")).
Proof.
  unfold parseJsonValue. simpl.
  rewrite toLowerCase_eqb; reflexivity.
Qed.

Example parseJsonValue_boolean_examples :
  parseJsonValue "true" "boolean" = Return (VBoolean true)
  /\ parseJsonValue "false" "boolean" = Return (VBoolean false)
  /\ parseJsonValue "TRUE" "boolean" = Return (VBoolean true)
  /\ parseJsonValue "yes" "boolean" = Return (VBoolean false)
  /\ parseJsonValue " true" "boolean" = Return (VBoolean false).
Proof. repeat split; reflexivity. Qed.

Lemma drop_white_space_blank (l : list ascii) :
  forallb Chars.is_white_space l = true -> StringToNumber.drop_white_space l = [].
Proof.
  induction l as [| c rest IH]; simpl; [reflexivity |].
  destruct (Chars.is_white_space c); simpl; [exact IH | discriminate].
Qed.

(** [Number] of a text of white space only is 0. *)
Lemma Number_blank (value : string) :
  forallb Chars.is_white_space (chars value) = true ->
  Number value = S754_zero false.
Proof.
  intros H. unfold Number, StringToNumber.of_chars, StringToNumber.trim.
  rewrite (drop_white_space_blank _ H). reflexivity.
Qed.

(** C2, as the code has it. For every text, coercion with declared type
    [number] returns 0 when the text is empty or white space only;
    otherwise it fails with "Invalid number" exactly when [Number] of the
    text is NaN, and returns [Number] of the text when it is not, be it
    finite or infinite. *)
Theorem parseJsonValue_number (value : string) :
  parseJsonValue value "number"
  = if forallb Chars.is_white_space (chars value)
    then Return (VNumber (S754_zero false))
    else if isNaN (Number value) then Throw (Error "Invalid number")
    else Return (VNumber (Number value)).
Proof.
  unfold parseJsonValue. simpl.
  destruct (forallb Chars.is_white_space (chars value)) eqn:Hblank.
  - rewrite (Number_blank _ Hblank). reflexivity.
  - reflexivity.
Qed.

(** C2 fails as stated: the empty text is coerced to 0 and a text that
    denotes an infinity to that infinity; neither coercion fails. *)
Lemma parseJsonValue_number_empty_and_infinite :
  parseJsonValue "" "number" = Return (VNumber (S754_zero false))
  /\ parseJsonValue "Infinity" "number" = Return (VNumber (S754_infinity false))
  /\ parseJsonValue "-Infinity" "number" = Return (VNumber (S754_infinity true))
  /\ parseJsonValue "1e999" "number" = Return (VNumber (S754_infinity false)).
Proof. repeat split; vm_compute; reflexivity. Qed.

Example parseJsonValue_number_examples :
  parseJsonValue "42" "number" = Return (VNumber (Double.of_Z 42))
  /\ parseJsonValue "abc" "number" = Throw (Error "Invalid number")
  /\ parseJsonValue "12px" "number" = Throw (Error "Invalid number")
  /\ parseJsonValue "anything" "null" = Return VNull
  /\ parseJsonValue "anything" "string" = Return (VString "anything").
Proof. repeat split; vm_compute; reflexivity. Qed.

(** ** Reading along a path *)







Example getValueByPath_short_circuit_examples :
  getValueByPath (VObject [("a", VNull)]) [Key "a"; Key "b"; Key "c"] = VUndefined
  /\ getValueByPath (VObject [("a", VNumber (Double.of_Z 5))])
       [Key "a"; Index (Double.of_Z 0); Key "c"] = VUndefined
  /\ getValueByPath (VObject [("a", VString "hi")])
       [Key "a"; Index (Double.of_Z 2); Key "c"] = VUndefined
  /\ getValueByPath (VObject [("a", VObject [])])
       [Key "a"; Index (Double.of_Z 0); Key "c"] = VUndefined.
Proof. repeat split; reflexivity. Qed.


(** ** Arrays on the spine *)

(** C5 fails on the code: an array on the spine does not remain an array.
    For every array and every non-empty path, what [setValueByPath]
    returns is an object: its entries are the elements of the array under
    their indices as keys, with the head segment rebound. *)
Theorem setValueByPath_array_becomes_object (elements : list jsval) (key : segment)
    (rest : list segment) (value updated : jsval) :
  setValueByPath (VArray elements) (key :: rest) value = Return updated ->
  exists x,
    updated
    = VObject (define_property (indexed_from 0 elements) (ToPropertyKey key) x).
Proof.
  intros H. destruct (setValueByPath_shape _ _ _ _ _ H) as [x ->].
  exists x. reflexivity.
Qed.

(** Replacing element 0 of [[1, 2]] returns the object with the keys "0"
    and "1", and a save writes that object into the document. *)
Lemma setValueByPath_array_becomes_object_witness :
  setValueByPath (VArray [VNumber (Double.of_Z 1); VNumber (Double.of_Z 2)])
    [Index (Double.of_Z 0)] (VNumber (Double.of_Z 9))
  = Return (VObject [("0", VNumber (Double.of_Z 9)); ("1", VNumber (Double.of_Z 2))])
  /\ (exists x,
        VObject [("0", VNumber (Double.of_Z 9)); ("1", VNumber (Double.of_Z 2))]
        = VObject (define_property
                     (indexed_from 0 [VNumber (Double.of_Z 1); VNumber (Double.of_Z 2)])
                     (ToPropertyKey (Index (Double.of_Z 0))) x))
  /\ save_steps ("{" ++ dq ++ "tags" ++ dq ++ ":[1,2]}") "9" "number"
       [Key "tags"; Index (Double.of_Z 0)]
     = Return (VObject
                 [("tags", VObject [("0", VNumber (Double.of_Z 9));
                                    ("1", VNumber (Double.of_Z 2))])]).
Proof.
  split; [reflexivity |]. split; [| vm_compute; reflexivity].
  apply (setValueByPath_array_becomes_object
           [VNumber (Double.of_Z 1); VNumber (Double.of_Z 2)]
           (Index (Double.of_Z 0)) [] (VNumber (Double.of_Z 9))).
  reflexivity.
Defined.

(** On a non-empty path the result is always an object, whatever the
    container was. *)
Lemma setValueByPath_returns_object (obj : jsval) (key : segment)
    (rest : list segment) (value updated : jsval) :
  setValueByPath obj (key :: rest) value = Return updated ->
  exists props, updated = VObject props.
Proof.
  intros H. destruct (setValueByPath_shape _ _ _ _ _ H) as [x ->].
  eexists. reflexivity.
Qed.

(** On an object, the result holds the value given to the head segment
    and, at every other key, the entry of the object. *)
Lemma setValueByPath_object_entries (props : properties) (key : segment)
    (rest : list segment) (value updated : jsval) :
  setValueByPath (VObject props) (key :: rest) value = Return updated ->
  exists x,
    updated = VObject (define_property props (ToPropertyKey key) x)
    /\ setValueByPath
         (match rest with
          | [] => VObject props
          | _ => or_else (get_property (VObject props) (ToPropertyKey key)) (VObject [])
          end)
         rest value = Return x
    /\ forall k', k' <> ToPropertyKey key ->
                  lookup k' (define_property props (ToPropertyKey key) x)
                  = lookup k' props.
Proof.
  destruct rest as [| next more]; intros H.
  - simpl in H. injection H as <-. exists value.
    split; [reflexivity |]. split; [reflexivity |].
    intros k' Hk. now apply lookup_define_other.
  - rewrite setValueByPath_deeper in H. unfold get in H. simpl nullish in H.
    cbn [bind] in H.
    destruct (setValueByPath _ (next :: more) value) as [inner |] eqn:E;
      cbn [bind] in H; [| discriminate].
    injection H as <-. exists inner.
    split; [reflexivity |]. split; [reflexivity |].
    intros k' Hk. now apply lookup_define_other.
Qed.

(** ** Saving *)

Section Save.

Import Modal.

Variable w : World.

(** Without a path the save is refused: a toast, and nothing else. *)
Lemma handleSave_without_path :
  path_of (selectedNode w) = None ->
  handleSave w = show (toast_error (Literal "Cannot edit root node")) w.
Proof.
  intros H. unfold handleSave, try_catch, save_body, bindM, read.
  rewrite H. reflexivity.
Qed.

(** With a path, a failing step is caught and shown. *)
Lemma handleSave_failure (node_path : list segment) (e : exn) :
  path_of (selectedNode w) = Some node_path ->
  save_steps (stored_json w) (editValue w) (editType w) node_path = Throw e ->
  handleSave w = show (toast_error (message_of e)) w.
Proof.
  intros Hpath Hsteps.
  unfold handleSave, try_catch, save_body, bindM, read, getJson, read, lift.
  rewrite Hpath. unfold save_steps in Hsteps.
  destruct (JSON_parse (stored_json w)) as [json |]; cbn [bind] in Hsteps;
    [| injection Hsteps as ->; reflexivity].
  destruct (parseJsonValue (editValue w) (editType w)) as [newValue |];
    cbn [bind] in Hsteps; [| injection Hsteps as ->; reflexivity].
  rewrite Hsteps. reflexivity.
Qed.

(** With a path, when every step succeeds the new text is handed to the
    file store, and the modal leaves the editing state and closes. *)
Lemma handleSave_success (node_path : list segment) (updated : jsval) :
  path_of (selectedNode w) = Some node_path ->
  save_steps (stored_json w) (editValue w) (editType w) node_path = Return updated ->
  handleSave w
  = (setContents (JSON_stringify updated 2) true ;;;
     show (toast_success (Literal "Node updated successfully!")) ;;;
     setIsEditing false ;;;
     onClose) w.
Proof.
  intros Hpath Hsteps.
  unfold handleSave, try_catch, save_body, bindM, read, getJson, read, lift.
  rewrite Hpath. unfold save_steps in Hsteps.
  destruct (JSON_parse (stored_json w)) as [json |]; cbn [bind] in Hsteps;
    [| discriminate].
  destruct (parseJsonValue (editValue w) (editType w)) as [newValue |];
    cbn [bind] in Hsteps; [| discriminate].
  rewrite Hsteps. reflexivity.
Qed.

(** C9. For every save that fails at one of the steps decode, coerce or
    replace, the editing flag is as before (the session remains in the
    editing state), no text is handed to the file store, the modal is not
    closed, and the failure is shown. *)
Theorem handleSave_failure_is_all_or_nothing (node_path : list segment) (e : exn) :
  path_of (selectedNode w) = Some node_path ->
  (JSON_parse (stored_json w) = Throw e
   \/ (exists json,
         JSON_parse (stored_json w) = Return json
         /\ parseJsonValue (editValue w) (editType w) = Throw e)
   \/ (exists json newValue,
         JSON_parse (stored_json w) = Return json
         /\ parseJsonValue (editValue w) (editType w) = Return newValue
         /\ setValueByPath json node_path newValue = Throw e)) ->
  isEditing (snd (handleSave w)) = isEditing w
  /\ written (snd (handleSave w)) = written w
  /\ closed (snd (handleSave w)) = closed w
  /\ stored_json (snd (handleSave w)) = stored_json w
  /\ toasts (snd (handleSave w)) = (toasts w ++ [toast_error (message_of e)])%list.
Proof.
  intros Hpath Hfail.
  assert (Hsteps : save_steps (stored_json w) (editValue w) (editType w) node_path
                   = Throw e).
  { unfold save_steps.
    destruct Hfail as [H | [[json [H1 H2]] | [json [newValue [H1 [H2 H3]]]]]].
    - rewrite H. reflexivity.
    - rewrite H1, H2. reflexivity.
    - rewrite H1, H2. exact H3. }
  rewrite (handleSave_failure _ _ Hpath Hsteps).
  repeat split.
Qed.

End Save.

Lemma handleSave_failure_is_all_or_nothing_witness :
  let w := {| Modal.selectedNode := Some {| path := Some [Key "a"]; text := [] |};
              Modal.stored_json := "{}";
              Modal.editValue := "abc";
              Modal.editType := "number";
              Modal.isEditing := true;
              Modal.written := [];
              Modal.toasts := [];
              Modal.closed := false |} in
  Modal.isEditing (snd (Modal.handleSave w)) = true
  /\ Modal.written (snd (Modal.handleSave w)) = []
  /\ Modal.closed (snd (Modal.handleSave w)) = false
  /\ Modal.stored_json (snd (Modal.handleSave w)) = "{}"
  /\ Modal.toasts (snd (Modal.handleSave w))
     = [Modal.toast_error (Modal.Literal "Invalid number")].
Proof.
  intros w.
  apply (handleSave_failure_is_all_or_nothing w [Key "a"] (Error "Invalid number")).
  - reflexivity.
  - right. left. exists (VObject []). split; reflexivity.
Defined.

(** [handleSave] has no refusal of its own for the empty path. Its guard
    tests the path for being absent, and an empty path passes it: whenever
    the stored text decodes and the edited text is coerced, the coerced
    value is handed to the file store as the whole document. The component
    keeps [handleSave] away from such a node, see below. *)
Lemma handleSave_with_empty_path (w : Modal.World) (json newValue : jsval) :
  Modal.path_of (Modal.selectedNode w) = Some [] ->
  JSON_parse (Modal.stored_json w) = Return json ->
  parseJsonValue (Modal.editValue w) (Modal.editType w) = Return newValue ->
  Modal.written (snd (Modal.handleSave w))
  = (Modal.written w ++ [(JSON_stringify newValue 2, true)])%list
  /\ Modal.toasts (snd (Modal.handleSave w))
     = (Modal.toasts w
        ++ [Modal.toast_success (Modal.Literal "Node updated successfully!")])%list
  /\ Modal.isEditing (snd (Modal.handleSave w)) = false
  /\ Modal.closed (snd (Modal.handleSave w)) = true.
Proof.
  intros Hpath Hparse Hcoerce.
  assert (Hsteps : save_steps (Modal.stored_json w) (Modal.editValue w)
                     (Modal.editType w) [] = Return newValue).
  { unfold save_steps. rewrite Hparse, Hcoerce. reflexivity. }
  rewrite (handleSave_success w [] newValue Hpath Hsteps).
  repeat split.
Qed.

(** C1 fails as stated: for a node whose path is the empty sequence no
    save fails with "Cannot edit root node". The root of the document
    [{"a":1}] is selected with the empty path. The Save control is not on
    the screen, so no save is run and nothing is shown; and [handleSave]
    itself, applied to this state, does not refuse: it shows the success
    and hands the text of the string "x" to the file store. *)
Lemma handleSave_does_not_refuse_the_empty_path :
  let root := {| path := Some []; text := [] |} in
  let w := {| Modal.selectedNode := Some root;
              Modal.stored_json := "{" ++ dq ++ "a" ++ dq ++ ":1}";
              Modal.editValue := "x";
              Modal.editType := "string";
              Modal.isEditing := true;
              Modal.written := [];
              Modal.toasts := [];
              Modal.closed := false |} in
  Modal.isRootNode root = true
  /\ Editor.use Editor.Save w = None
  /\ Modal.toasts (snd (Modal.handleSave w))
     = [Modal.toast_success (Modal.Literal "Node updated successfully!")]
  /\ Modal.written (snd (Modal.handleSave w)) = [(Some (dq ++ "x" ++ dq), true)].
Proof. repeat split; vm_compute; reflexivity. Qed.

(** C1, as the code has it. For every node whose path is the empty
    sequence or absent, the component shows the content view without the
    Edit button, whatever the editing flag: neither Edit nor Save is on
    the screen, so no save is run, and no control that is on the screen
    hands a text to the file store, shows a toast or changes the editing
    flag. [handleSave] itself refuses a node whose path is absent: it
    shows "Cannot edit root node" and does nothing else. *)
Theorem root_is_shown_without_edit_and_save (w : Modal.World) (nodeData : NodeData) :
  Modal.selectedNode w = Some nodeData ->
  Modal.isRootNode nodeData = true ->
  Editor.render w
  = Editor.ContentView (normalizeNodeData (Some (text nodeData))) "$" false
  /\ Editor.use Editor.Save w = None
  /\ Editor.use Editor.EditNode w = None
  /\ (forall (c : Editor.control) (w' : Modal.World),
        Editor.use c w = Some w' ->
        Modal.written w' = Modal.written w
        /\ Modal.toasts w' = Modal.toasts w
        /\ Modal.isEditing w' = Modal.isEditing w)
  /\ (path nodeData = None ->
      Modal.written (snd (Modal.handleSave w)) = Modal.written w
      /\ Modal.toasts (snd (Modal.handleSave w))
         = (Modal.toasts w
            ++ [Modal.toast_error (Modal.Literal "Cannot edit root node")])%list
      /\ Modal.isEditing (snd (Modal.handleSave w)) = Modal.isEditing w
      /\ Modal.closed (snd (Modal.handleSave w)) = Modal.closed w).
Proof.
  intros Hnode Hroot.
  assert (Hpath : jsonPathToString (path nodeData) = "$").
  { unfold Modal.isRootNode in Hroot. unfold jsonPathToString.
    destruct (path nodeData) as [[| seg rest] |]; [reflexivity | discriminate
                                                  | reflexivity]. }
  assert (Hrender : Editor.render w
                    = Editor.ContentView (normalizeNodeData (Some (text nodeData)))
                        "$" false).
  { unfold Editor.render. rewrite Hnode, Hroot, andb_false_r, Hpath. reflexivity. }
  split; [exact Hrender |].
  unfold Editor.use. rewrite Hrender.
  split; [reflexivity |]. split; [reflexivity |]. split.
  - intros c w'.
    destruct c; simpl; try discriminate; intros H; injection H as <-; repeat split.
  - intros Hnone.
    rewrite (handleSave_without_path w); [repeat split |].
    unfold Modal.path_of. rewrite Hnode. exact Hnone.
Qed.

Lemma root_is_shown_without_edit_and_save_witness :
  let root := {| path := Some []; text := [] |} in
  let w := {| Modal.selectedNode := Some root;
              Modal.stored_json := "{" ++ dq ++ "a" ++ dq ++ ":1}";
              Modal.editValue := "x";
              Modal.editType := "string";
              Modal.isEditing := true;
              Modal.written := [];
              Modal.toasts := [];
              Modal.closed := false |} in
  Modal.selectedNode w = Some root
  /\ Modal.isRootNode root = true
  /\ Editor.render w = Editor.ContentView (Some "{}") "$" false
  /\ Editor.use Editor.Save w = None
  /\ Editor.use Editor.EditNode w = None
  /\ (forall (c : Editor.control) (w' : Modal.World),
        Editor.use c w = Some w' ->
        Modal.written w' = Modal.written w
        /\ Modal.toasts w' = Modal.toasts w
        /\ Modal.isEditing w' = Modal.isEditing w)
  /\ (path root = None ->
      Modal.written (snd (Modal.handleSave w)) = Modal.written w
      /\ Modal.toasts (snd (Modal.handleSave w))
         = (Modal.toasts w
            ++ [Modal.toast_error (Modal.Literal "Cannot edit root node")])%list
      /\ Modal.isEditing (snd (Modal.handleSave w)) = Modal.isEditing w
      /\ Modal.closed (snd (Modal.handleSave w)) = Modal.closed w).
Proof.
  intros root w. split; [reflexivity |]. split; [reflexivity |].
  apply (root_is_shown_without_edit_and_save w root); reflexivity.
Defined.

(** A node without a path is refused by [handleSave], and nothing is
    handed to the file store. *)
Example handleSave_refuses_a_node_without_path :
  let w := {| Modal.selectedNode := Some {| path := None; text := [] |};
              Modal.stored_json := "{}";
              Modal.editValue := "x";
              Modal.editType := "string";
              Modal.isEditing := true;
              Modal.written := [];
              Modal.toasts := [];
              Modal.closed := false |} in
  Modal.written (snd (Modal.handleSave w)) = []
  /\ Modal.toasts (snd (Modal.handleSave w))
     = [Modal.toast_error (Modal.Literal "Cannot edit root node")]
  /\ Modal.isEditing (snd (Modal.handleSave w)) = true
  /\ Modal.closed (snd (Modal.handleSave w)) = false.
Proof. repeat split; vm_compute; reflexivity. Qed.

(** The replacement itself can fail: reading a key of [null]. *)
Example save_steps_replace_fails :
  save_steps "null" "x" "string" [Key "a"; Key "b"] = Throw (TypeError VNull "a")
  /\ save_steps "{" "x" "string" [Key "a"] = Throw (SyntaxError "{")
  /\ save_steps "{}" "x" "number" [Key "a"] = Throw (Error "Invalid number").
Proof. repeat split; vm_compute; reflexivity. Qed.

(** The scenario of a save: the name of the customer is replaced, and the
    tags are written as they were. *)
Example handleSave_scenario :
  let stored :=
    "{" ++ dq ++ "customer" ++ dq ++ ":{" ++ dq ++ "name" ++ dq ++ ":" ++ dq ++ "Ada"
    ++ dq ++ "," ++ dq ++ "tags" ++ dq ++ ":[" ++ dq ++ "x" ++ dq ++ "," ++ dq ++ "y"
    ++ dq ++ "]}}" in
  save_steps stored "Grace" "string" [Key "customer"; Key "name"]
  = Return (VObject [("customer",
                      VObject [("name", VString "Grace");
                               ("tags", VArray [VString "x"; VString "y"])])]).
Proof. vm_compute. reflexivity. Qed.

(** ** The content view *)

Lemma existsb_key_app (k : string) (a b : properties) :
  existsb (String.eqb k) (map fst (a ++ b)%list)
  = existsb (String.eqb k) (map fst a) || existsb (String.eqb k) (map fst b).
Proof. rewrite map_app. apply existsb_app. Qed.

Lemma distinct_keys_fresh (acc : properties) (k : string) (v : jsval)
    (rest : properties) :
  distinct_keys (acc ++ (k, v) :: rest)%list = true -> lookup k acc = None.
Proof.
  induction acc as [| [k0 v0] acc' IH]; simpl; [reflexivity |].
  intros H. apply andb_prop in H. destruct H as [Hfresh Hrest].
  destruct (String.eqb k k0) eqn:E.
  - apply String.eqb_eq in E. subst k0.
    rewrite existsb_key_app in Hfresh. simpl in Hfresh.
    rewrite String.eqb_refl, orb_true_r in Hfresh. discriminate.
  - apply IH. exact Hrest.
Qed.

Lemma plain_keys_app (a b : properties) :
  plain_keys (a ++ b)%list = true ->
  forallb (fun entry => plain_key (fst entry)) b = true.
Proof.
  unfold plain_keys. intros H. apply andb_prop in H. destruct H as [H _].
  rewrite forallb_app in H. apply andb_prop in H. tauto.
Qed.

Lemma define_plain_fresh (acc : properties) (k : string) (v : jsval) :
  plain_key k = true -> lookup k acc = None ->
  assign acc k v = (acc ++ [(k, v)])%list.
Proof.
  unfold plain_key, assign, define_property. intros Hplain Hfresh.
  destruct (array_index k); [discriminate |].
  apply negb_true_iff in Hplain. rewrite Hplain, Hfresh. reflexivity.
Qed.

Lemma contributes_add_row (acc : properties) (row : NodeRow) :
  contributes row = true -> add_row acc row = assign acc (key_text row) (value row).
Proof.
  unfold contributes, add_row, key_text. intros H.
  apply andb_prop in H. destruct H as [Ht Hk]. rewrite Ht.
  destruct (key row); [rewrite Hk; reflexivity | discriminate].
Qed.

Lemma skipped_add_row (acc : properties) (row : NodeRow) :
  contributes row = false -> add_row acc row = acc.
Proof.
  unfold contributes, add_row. intros H.
  destruct (negb (is_array (type row)) && negb (is_object (type row)));
    [| reflexivity].
  simpl in H. destruct (key row); [rewrite H |]; reflexivity.
Qed.

(** With plain keys, the loop appends the entries in the order of the
    rows. *)
Lemma fold_add_row_plain (rows : list NodeRow) :
  forall acc,
    plain_keys (acc ++ entries_in_row_order rows)%list = true ->
    fold_left add_row rows acc = (acc ++ entries_in_row_order rows)%list.
Proof.
  unfold entries_in_row_order.
  induction rows as [| row rest IH]; intros acc H; simpl.
  - now rewrite app_nil_r.
  - simpl in H. destruct (contributes row) eqn:C.
    + simpl in H. rewrite (contributes_add_row _ _ C).
      rewrite define_plain_fresh.
      * rewrite IH; rewrite <- app_assoc; [reflexivity | exact H].
      * pose proof (plain_keys_app _ _ H) as Hp. simpl in Hp.
        apply andb_prop in Hp. tauto.
      * unfold plain_keys in H. apply andb_prop in H. destruct H as [_ Hd].
        eapply distinct_keys_fresh. exact Hd.
    + rewrite (skipped_add_row _ _ C). apply IH. exact H.
Qed.

Lemma normalizeNodeData_multi_row (rows : list NodeRow) :
  multi_row rows = true ->
  normalizeNodeData (Some rows) = JSON_stringify (VObject (fold_left add_row rows [])) 2.
Proof.
  destruct rows as [| first [| second more]]; intros H.
  - discriminate.
  - simpl in H. unfold normalizeNodeData. rewrite H. reflexivity.
  - reflexivity.
Qed.

(** C7, as the code has it. For every row sequence in which the rows that
    contribute an entry (type neither array nor object, key present and
    not empty) have pairwise distinct keys, none of them an array index or
    [__proto__], the content view is the one the specification describes:
    "{}" for no row; the value alone, as text, for a single row whose key
    is absent or empty; otherwise the JSON object, indented by two spaces,
    that maps the key of each contributing row to its value, in the order
    of the rows. *)
Theorem normalizeNodeData_content_view (rows : list NodeRow) :
  plain_keys (entries_in_row_order rows) = true ->
  normalizeNodeData (Some rows) = content_view rows.
Proof.
  intros H.
  assert (Hfold : fold_left add_row rows [] = entries_in_row_order rows)
    by (apply (fold_add_row_plain rows []); exact H).
  destruct rows as [| first [| second more]].
  - reflexivity.
  - unfold normalizeNodeData, content_view.
    destruct (truthy_key (key first)); [| reflexivity].
    simpl negb. simpl andb. cbv iota. rewrite Hfold. reflexivity.
  - rewrite normalizeNodeData_multi_row by reflexivity.
    rewrite Hfold. reflexivity.
Qed.

Lemma normalizeNodeData_content_view_witness :
  let rows := [scalar_row "a" (VNumber (Double.of_Z 1)) number_type;
               scalar_row "b" VUndefined array_type;
               scalar_row "c" (VString "x") string_type] in
  plain_keys (entries_in_row_order rows) = true
  /\ normalizeNodeData (Some rows) = content_view rows
  /\ content_view rows
     = Some ("{" ++ Stringify.line_break
             ++ "  " ++ dq ++ "a" ++ dq ++ ": 1," ++ Stringify.line_break
             ++ "  " ++ dq ++ "c" ++ dq ++ ": " ++ dq ++ "x" ++ dq ++ Stringify.line_break
             ++ "}").
Proof.
  intros rows. split; [reflexivity |]. split.
  - apply (normalizeNodeData_content_view rows). reflexivity.
  - vm_compute. reflexivity.
Defined.

(** C7 fails as stated: a key that is an array index is written before
    the keys that are not, whatever the order of the rows. *)
Lemma normalizeNodeData_index_key_first :
  let rows := [scalar_row "b" (VNumber (Double.of_Z 1)) number_type;
               scalar_row "1" (VNumber (Double.of_Z 2)) number_type] in
  normalizeNodeData (Some rows)
  = Some ("{" ++ Stringify.line_break
          ++ "  " ++ dq ++ "1" ++ dq ++ ": 2," ++ Stringify.line_break
          ++ "  " ++ dq ++ "b" ++ dq ++ ": 1" ++ Stringify.line_break
          ++ "}")
  /\ normalizeNodeData (Some rows) <> content_view rows.
Proof. intros rows. split; [| intros H]; vm_compute in *; [reflexivity | discriminate]. Qed.

(** The other keys that are not plain: a repeated key keeps its first
    place with its last value, and [__proto__] gives no entry. *)
Example normalizeNodeData_repeated_and_proto_keys :
  normalizeNodeData
    (Some [scalar_row "a" (VNumber (Double.of_Z 1)) number_type;
           scalar_row "b" (VNumber (Double.of_Z 2)) number_type;
           scalar_row "a" (VNumber (Double.of_Z 3)) number_type;
           scalar_row "__proto__" VNull null_type])
  = Some ("{" ++ Stringify.line_break
          ++ "  " ++ dq ++ "a" ++ dq ++ ": 3," ++ Stringify.line_break
          ++ "  " ++ dq ++ "b" ++ dq ++ ": 2" ++ Stringify.line_break
          ++ "}").
Proof. vm_compute. reflexivity. Qed.

Example normalizeNodeData_examples :
  normalizeNodeData (Some []) = Some "{}"
  /\ normalizeNodeData None = Some "{}"
  /\ normalizeNodeData
       (Some [{| key := None; value := VString "hello"; type := string_type |}])
     = Some "hello"
  /\ normalizeNodeData
       (Some [scalar_row "a" (VNumber (Double.of_Z 1)) number_type;
              scalar_row "b" VUndefined array_type])
     = Some ("{" ++ Stringify.line_break ++ "  " ++ dq ++ "a" ++ dq ++ ": 1"
             ++ Stringify.line_break ++ "}").
Proof. repeat split; vm_compute; reflexivity. Qed.

(** ** Rows without a key *)

Lemma keyless_add_row (acc : properties) (row : NodeRow) :
  keyed row = false -> add_row acc row = acc.
Proof.
  unfold keyed, add_row. intros H.
  destruct (negb (is_array (type row)) && negb (is_object (type row)));
    [| reflexivity].
  destruct (key row); [rewrite H |]; reflexivity.
Qed.

Lemma fold_add_row_keyed (rows : list NodeRow) :
  forall acc, fold_left add_row rows acc = fold_left add_row (filter keyed rows) acc.
Proof.
  induction rows as [| row rest IH]; intros acc; simpl; [reflexivity |].
  destruct (keyed row) eqn:K; simpl.
  - apply IH.
  - rewrite (keyless_add_row _ _ K). apply IH.
Qed.

Lemma In_overwrite {A : Type} (k : string) (v : A) (props : list (string * A))
    (entry : string * A) :
  In entry (overwrite k v props) -> entry = (k, v) \/ In entry props.
Proof.
  induction props as [| [k0 v0] rest IH]; simpl; [tauto |].
  destruct (String.eqb k k0) eqn:E; simpl.
  - apply String.eqb_eq in E. subst k0.
    intros [<- | H]; [left; reflexivity | right; right; exact H].
  - intros [<- | H]; [right; left; reflexivity |].
    destruct (IH H); [left | right; right]; assumption.
Qed.

Lemma In_insert_index {A : Type} (i : Z) (k : string) (v : A)
    (props : list (string * A)) (entry : string * A) :
  In entry (insert_index i k v props) -> entry = (k, v) \/ In entry props.
Proof.
  induction props as [| [k0 v0] rest IH]; simpl.
  - intros [<- | []]. left. reflexivity.
  - destruct (array_index k0) as [j |]; [destruct (j <? i) |]; simpl.
    + intros [<- | H]; [right; left; reflexivity |].
      destruct (IH H); [left | right; right]; assumption.
    + intros [<- | H]; [left; reflexivity | right; exact H].
    + intros [<- | H]; [left; reflexivity | right; exact H].
Qed.

(** An entry after a definition is the one defined or one from before. *)
Lemma In_define_property {A : Type} (props : list (string * A)) (k : string) (v : A)
    (entry : string * A) :
  In entry (define_property props k v) -> entry = (k, v) \/ In entry props.
Proof.
  unfold define_property.
  destruct (lookup k props); [apply In_overwrite |].
  destruct (array_index k); [apply In_insert_index |].
  intros H. apply in_app_or in H. destruct H as [H | [<- | []]]; [right | left]; auto.
Qed.

Lemma In_assign (props : properties) (k : string) (v : jsval)
    (entry : string * jsval) :
  In entry (assign props k v) -> fst entry = k \/ In entry props.
Proof.
  unfold assign. destruct (String.eqb k "__proto__"); [tauto |].
  intros H. destruct (In_define_property _ _ _ _ H) as [-> | Hin]; [left | right]; auto.
Qed.

(** Every entry of the object under construction has the key of a row
    whose key is present and not empty. *)
Lemma fold_add_row_keys (rows : list NodeRow) :
  forall acc entry,
    In entry (fold_left add_row rows acc) ->
    In entry acc
    \/ exists row, In row rows /\ keyed row = true /\ key row = Some (fst entry).
Proof.
  induction rows as [| row rest IH]; intros acc entry H; simpl in H; [tauto |].
  destruct (IH _ _ H) as [Hacc | [r [Hin [Hk He]]]].
  - unfold add_row in Hacc.
    destruct (negb (is_array (type row)) && negb (is_object (type row)));
      [| left; exact Hacc].
    destruct (key row) as [k |] eqn:Ek; [| left; exact Hacc].
    destruct (truthy_key (Some k)) eqn:Et; [| left; exact Hacc].
    destruct (In_assign _ _ _ _ Hacc) as [Hfst | Hold]; [| left; exact Hold].
    right. exists row. split; [left; reflexivity |]. split.
    + unfold keyed. rewrite Ek. exact Et.
    + rewrite Ek, Hfst. reflexivity.
  - right. exists r. split; [right; exact Hin |]. tauto.
Qed.

(** C10. When the rows are rendered as an object, every row whose key is
    absent or empty is left out: the view is the one of the rows that
    have a key, and every entry of the rendered object has the key of
    such a row. *)
Theorem normalizeNodeData_omits_keyless_rows (rows : list NodeRow) :
  multi_row rows = true ->
  normalizeNodeData (Some rows)
  = JSON_stringify (VObject (fold_left add_row (filter keyed rows) [])) 2
  /\ forall entry,
       In entry (fold_left add_row rows []) ->
       exists row, In row rows /\ keyed row = true /\ key row = Some (fst entry).
Proof.
  intros H. split.
  - rewrite (normalizeNodeData_multi_row _ H), fold_add_row_keyed. reflexivity.
  - intros entry Hin.
    destruct (fold_add_row_keys rows [] entry Hin) as [[] | Hrow]. exact Hrow.
Qed.

Lemma normalizeNodeData_omits_keyless_rows_witness :
  let rows := [scalar_row "a" (VNumber (Double.of_Z 1)) number_type;
               {| key := None; value := VString "lost"; type := string_type |};
               {| key := Some ""; value := VString "lost too"; type := string_type |}] in
  multi_row rows = true
  /\ normalizeNodeData (Some rows)
     = Some ("{" ++ Stringify.line_break ++ "  " ++ dq ++ "a" ++ dq ++ ": 1"
             ++ Stringify.line_break ++ "}")
  /\ forall entry,
       In entry (fold_left add_row rows []) ->
       exists row, In row rows /\ keyed row = true /\ key row = Some (fst entry).
Proof.
  intros rows. split; [reflexivity |].
  destruct (normalizeNodeData_omits_keyless_rows rows eq_refl) as [Hview Hkeys].
  split; [rewrite Hview; vm_compute; reflexivity | exact Hkeys].
Defined.

(** ** Sharing in the store *)

Lemma store_getValueByPath_cons (st : Store.store) (obj : Store.sval)
    (seg : segment) (rest : list segment) :
  Store.getValueByPath st obj (seg :: rest)
  = Store.getValueByPath st (Store.optional_get st obj seg) rest.
Proof. reflexivity. Qed.

Lemma store_setValueByPath_deeper (st : Store.store) (obj : Store.sval)
    (key next : segment) (more : list segment) (value : Store.sval) :
  Store.setValueByPath st obj (key :: next :: more) value
  = (child <- Store.get st obj key ;;
     updated <- Store.setValueByPath (fst (Store.or_empty_object st child))
                  (snd (Store.or_empty_object st child)) (next :: more) value ;;
     Return (Store.spread_with (fst updated) obj key (snd updated))).
Proof. reflexivity. Qed.

Lemma nth_error_alloc {A : Type} (l : list A) (x : A) :
  nth_error (l ++ [x])%list (List.length l) = Some x.
Proof. rewrite nth_error_app2, Nat.sub_diag by lia. reflexivity. Qed.

Lemma nth_error_extends {A : Type} (l ext : list A) (n : nat) (x : A) :
  nth_error l n = Some x -> nth_error (l ++ ext)%list n = Some x.
Proof.
  intros H. rewrite nth_error_app1; [exact H |].
  apply nth_error_Some. congruence.
Qed.

Section StoreExtension.

Variables (st ext : Store.store).

(** A cell of the store is the same cell in every extension. *)
Lemma store_own_extends (v : Store.sval) (k : string) (x : Store.sval) :
  Store.own st v k = Some x -> Store.own (st ++ ext)%list v k = Some x.
Proof.
  destruct v as [| | b | n | s | a]; simpl; try discriminate.
  destruct (nth_error st a) as [c |] eqn:E; [| discriminate].
  rewrite (nth_error_extends _ ext _ _ E). auto.
Qed.

Lemma store_own_entries_extends (v : Store.sval) (k : string) (x : Store.sval) :
  Store.own st v k = Some x ->
  Store.own_entries (st ++ ext)%list v = Store.own_entries st v.
Proof.
  destruct v as [| | b | n | s | a]; simpl; try discriminate.
  destruct (nth_error st a) as [c |] eqn:E; [| discriminate].
  rewrite (nth_error_extends _ ext _ _ E). reflexivity.
Qed.

Lemma store_present_extends (q : list segment) :
  forall D, Store.present st D q = true -> Store.present (st ++ ext)%list D q = true.
Proof.
  induction q as [| seg rest IH]; intros D H; [reflexivity |].
  simpl in *.
  destruct (Store.own st D (ToPropertyKey seg)) as [child |] eqn:E; [| discriminate].
  rewrite (store_own_extends _ _ _ E). apply IH. exact H.
Qed.

End StoreExtension.

Lemma store_own_container (st : Store.store) (D : Store.sval) (k : string)
    (x : Store.sval) :
  Store.own st D k = Some x -> Store.nullish D = false /\ Store.truthy D = true.
Proof. destruct D; simpl; try discriminate; auto. Qed.

Lemma store_own_get_property (st : Store.store) (D : Store.sval) (k : string)
    (x : Store.sval) :
  Store.own st D k = Some x -> Store.get_property st D k = x.
Proof.
  destruct D as [| | b | n | s | a]; simpl; try discriminate.
  destruct (nth_error st a) as [[props | elements] |]; try discriminate.
  - now intros ->.
  - unfold Store.indexed_get. destruct (array_index k); [| discriminate].
    now intros ->.
Qed.

Lemma store_optional_get_own (st : Store.store) (D : Store.sval) (seg : segment)
    (x : Store.sval) :
  Store.own st D (ToPropertyKey seg) = Some x -> Store.optional_get st D seg = x.
Proof.
  intros H. unfold Store.optional_get.
  destruct (store_own_container _ _ _ _ H) as [-> _].
  now apply store_own_get_property.
Qed.

Lemma store_own_lookup_entries (st : Store.store) (D : Store.sval) (k : string)
    (x : Store.sval) :
  Store.own st D k = Some x -> lookup k (Store.own_entries st D) = Some x.
Proof.
  destruct D as [| | b | n | s | a]; simpl; try discriminate.
  destruct (nth_error st a) as [[props | elements] |]; try discriminate.
  - auto.
  - destruct (array_index k) as [i |] eqn:E; [| discriminate].
    intros H. rewrite (lookup_array_entries _ _ _ E). exact H.
Qed.

(** Reading a path that is present gives the same in every extension of
    the store. *)
Lemma store_getValueByPath_extends (st ext : Store.store) (q : list segment) :
  forall D,
    Store.present st D q = true ->
    Store.getValueByPath (st ++ ext)%list D q = Store.getValueByPath st D q.
Proof.
  induction q as [| seg rest IH]; intros D H; [reflexivity |].
  simpl in H.
  destruct (Store.own st D (ToPropertyKey seg)) as [child |] eqn:E; [| discriminate].
  rewrite !store_getValueByPath_cons.
  rewrite (store_optional_get_own _ _ _ _ E).
  rewrite (store_optional_get_own _ _ _ _ (store_own_extends st ext _ _ _ E)).
  apply IH. exact H.
Qed.

(** The own properties of the cell that a spread creates. *)
Lemma store_own_spread (st : Store.store) (obj : Store.sval) (key : segment)
    (x : Store.sval) (k : string) :
  Store.own (fst (Store.spread_with st obj key x)) (snd (Store.spread_with st obj key x)) k
  = lookup k (define_property (Store.own_entries st obj) (ToPropertyKey key) x).
Proof.
  unfold Store.spread_with, Store.alloc. simpl.
  rewrite nth_error_alloc. reflexivity.
Qed.

Lemma store_or_empty_object_extends (st : Store.store) (child : Store.sval) :
  exists ext, fst (Store.or_empty_object st child) = (st ++ ext)%list.
Proof.
  unfold Store.or_empty_object, Store.alloc.
  destruct (Store.truthy child); simpl.
  - exists []. now rewrite app_nil_r.
  - eexists. reflexivity.
Qed.

(** [setValueByPath] only adds cells: the cells of the store it was given
    are in the store it returns, at their addresses and as they were. *)
Lemma store_setValueByPath_extends (path : list segment) :
  forall st obj value r,
    Store.setValueByPath st obj path value = Return r ->
    exists ext, fst r = (st ++ ext)%list.
Proof.
  induction path as [| key remaining IH]; intros st obj value r H.
  - simpl in H. injection H as <-. exists []. simpl. now rewrite app_nil_r.
  - destruct remaining as [| next more].
    + simpl in H. injection H as <-. eexists. reflexivity.
    + rewrite store_setValueByPath_deeper in H.
      destruct (Store.get st obj key) as [child |]; cbn [bind] in H; [| discriminate].
      destruct (Store.setValueByPath _ _ (next :: more) value) as [inner |] eqn:E;
        cbn [bind] in H; [| discriminate].
      injection H as <-.
      destruct (IH _ _ _ _ E) as [ext2 Hext2].
      destruct (store_or_empty_object_extends st child) as [ext1 Hext1].
      unfold Store.spread_with, Store.alloc. simpl.
      rewrite Hext2, Hext1, <- !app_assoc. eexists. reflexivity.
Qed.

(** What [setValueByPath] returns on a non-empty path is a new cell: a
    spread of the container, in an extension of the store. *)
Lemma store_setValueByPath_shape (st : Store.store) (obj : Store.sval)
    (key : segment) (rest : list segment) (value : Store.sval)
    (r : Store.store * Store.sval) :
  Store.setValueByPath st obj (key :: rest) value = Return r ->
  exists ext x, r = Store.spread_with (st ++ ext)%list obj key x.
Proof.
  destruct rest as [| next more]; intros H.
  - simpl in H. injection H as <-. exists [], value. now rewrite app_nil_r.
  - rewrite store_setValueByPath_deeper in H.
    destruct (Store.get st obj key) as [child |]; cbn [bind] in H; [| discriminate].
    destruct (Store.setValueByPath _ _ (next :: more) value) as [inner |] eqn:E;
      cbn [bind] in H; [| discriminate].
    injection H as <-.
    destruct (store_setValueByPath_extends _ _ _ _ _ E) as [ext2 Hext2].
    destruct (store_or_empty_object_extends st child) as [ext1 Hext1].
    rewrite Hext2, Hext1, <- app_assoc. eexists. eexists. reflexivity.
Qed.

Lemma store_present_truthy (st : Store.store) (D : Store.sval) (q : list segment) :
  Store.present st D q = true -> q <> [] -> Store.truthy D = true.
Proof.
  destruct q as [| seg rest]; [congruence |]. simpl. intros H _.
  destruct (Store.own st D (ToPropertyKey seg)) eqn:E; [| discriminate].
  now destruct (store_own_container _ _ _ _ E).
Qed.

Lemma store_spread_extends (st : Store.store) (obj : Store.sval) (key : segment)
    (x : Store.sval) :
  exists c, fst (Store.spread_with st obj key x) = (st ++ [c])%list.
Proof. eexists. reflexivity. Qed.

(** C4. Structural sharing: for every document, path [p] and value,
    whenever [setValueByPath] returns, every subtree of the input that
    lies off the spine from the root to [p] (at a path [q] present in the
    input which leaves [p] at some level) is found in what it returns at
    the same path, and it is the subtree of the input itself: the same
    value, which for an object or an array is the same address, in a store
    that holds every cell of the input as it was. Nothing off the spine is
    copied, and what is returned is a new cell. *)
Theorem store_setValueByPath_shares_off_spine (p : list segment) :
  forall (st : Store.store) (D : Store.sval) (q : list segment) (v : Store.sval)
         (st' : Store.store) (updated : Store.sval),
    off_spine p q = true ->
    Store.present st D q = true ->
    Store.setValueByPath st D p v = Return (st', updated) ->
    exists ext,
      st' = (st ++ ext)%list
      /\ Store.below (List.length st) updated = false
      /\ Store.present st' updated q = true
      /\ Store.getValueByPath st' updated q = Store.getValueByPath st D q.
Proof.
  induction p as [| a p' IH]; intros st D q v st' updated Hoff Hq Hset;
    [discriminate |].
  destruct q as [| b q']; [discriminate |].
  simpl in Hoff, Hq.
  destruct (Store.own st D (ToPropertyKey b)) as [child |] eqn:Eown; [| discriminate].
  destruct (store_own_container _ _ _ _ Eown) as [Hnn _].
  rewrite (store_getValueByPath_cons st D b q'), (store_optional_get_own _ _ _ _ Eown).
  destruct (same_key a b) eqn:Ekey.
  - (* the two paths share this segment *)
    apply String.eqb_eq in Ekey.
    destruct (off_spine_nonempty _ _ Hoff) as [Hp' Hq'].
    destruct p' as [| next more]; [congruence |].
    rewrite store_setValueByPath_deeper in Hset. unfold Store.get in Hset.
    rewrite Hnn in Hset. cbn [bind] in Hset.
    rewrite Ekey, (store_own_get_property _ _ _ _ Eown) in Hset.
    unfold Store.or_empty_object in Hset.
    rewrite (store_present_truthy _ _ _ Hq Hq') in Hset. cbn [fst snd] in Hset.
    destruct (Store.setValueByPath st child (next :: more) v) as [[st2 inner] |]
      eqn:Einner; cbn [bind fst snd] in Hset; [| discriminate].
    destruct (IH st child q' v st2 inner Hoff Hq Einner)
      as [ext2 [Hst2 [_ [Hpres Hread]]]].
    pose (r := Store.spread_with st2 D a inner).
    assert (Hr : r = (st', updated)) by (unfold r; congruence).
    destruct (store_spread_extends st2 D a inner) as [c Hc]. fold r in Hc.
    assert (Hown : Store.own (fst r) (snd r) (ToPropertyKey b) = Some inner).
    { unfold r. rewrite store_own_spread, <- Ekey. apply lookup_define_same. }
    assert (Hbelow : Store.below (List.length st) (snd r) = false).
    { unfold r, Store.spread_with, Store.alloc. cbn [snd Store.below].
      apply Nat.ltb_ge. rewrite Hst2, length_app. lia. }
    rewrite Hr in Hc, Hown, Hbelow. cbn [fst snd] in Hc, Hown, Hbelow.
    exists (ext2 ++ [c])%list.
    split; [rewrite Hc, Hst2, <- app_assoc; reflexivity |].
    split; [exact Hbelow |]. split.
    + cbn [Store.present]. rewrite Hown, Hc. apply store_present_extends. exact Hpres.
    + rewrite store_getValueByPath_cons, (store_optional_get_own _ _ _ _ Hown).
      rewrite Hc, (store_getValueByPath_extends _ _ _ _ Hpres). exact Hread.
  - (* the path [q] leaves the spine here *)
    destruct (store_setValueByPath_shape _ _ _ _ _ _ Hset) as [ext [x Hr]].
    destruct (store_spread_extends (st ++ ext)%list D a x) as [c Hc].
    assert (Hown : Store.own st' updated (ToPropertyKey b) = Some child).
    { change st' with (fst (st', updated)). change updated with (snd (st', updated)) at 2.
      rewrite Hr, store_own_spread.
      rewrite lookup_define_other.
      - rewrite (store_own_entries_extends _ _ _ _ _ Eown).
        apply store_own_lookup_entries. exact Eown.
      - unfold same_key in Ekey. apply String.eqb_neq in Ekey. congruence. }
    assert (Hbelow : Store.below (List.length st) (snd (st', updated)) = false).
    { rewrite Hr. unfold Store.spread_with, Store.alloc. cbn [snd Store.below].
      apply Nat.ltb_ge. rewrite length_app. lia. }
    rewrite <- Hr in Hc. cbn [fst snd] in Hc, Hbelow.
    exists (ext ++ [c])%list.
    split; [rewrite Hc, <- app_assoc; reflexivity |].
    split; [exact Hbelow |]. split.
    + cbn [Store.present]. rewrite Hown, Hc, <- app_assoc.
      apply store_present_extends. exact Hq.
    + rewrite store_getValueByPath_cons, (store_optional_get_own _ _ _ _ Hown).
      rewrite Hc, <- app_assoc. apply store_getValueByPath_extends. exact Hq.
Qed.

Lemma store_setValueByPath_shares_off_spine_witness :
  let st := [Store.ArrayCell [Store.SString "x"; Store.SString "y"];
             Store.ObjectCell [("name", Store.SString "Ada"); ("tags", Store.SRef 0)];
             Store.ObjectCell [("customer", Store.SRef 1)]] in
  let D := Store.SRef 2 in
  let p := [Key "customer"; Key "name"] in
  let q := [Key "customer"; Key "tags"] in
  let st' := (st ++ [Store.ObjectCell [("name", Store.SString "Grace");
                                       ("tags", Store.SRef 0)];
                     Store.ObjectCell [("customer", Store.SRef 3)]])%list in
  let updated := Store.SRef 4 in
  off_spine p q = true
  /\ Store.present st D q = true
  /\ Store.present st D p = true
  /\ Store.setValueByPath st D p (Store.SString "Grace") = Return (st', updated)
  /\ Store.getValueByPath st D q = Store.SRef 0
  /\ exists ext,
       st' = (st ++ ext)%list
       /\ Store.below (List.length st) updated = false
       /\ Store.present st' updated q = true
       /\ Store.getValueByPath st' updated q = Store.getValueByPath st D q.
Proof.
  intros st D p q st' updated. split; [reflexivity |]. split; [reflexivity |].
  split; [reflexivity |]. split; [reflexivity |]. split; [reflexivity |].
  apply (store_setValueByPath_shares_off_spine p st D q (Store.SString "Grace")
           st' updated); reflexivity.
Defined.

(** ** The store and the trees

    The trees are the store with the addresses forgotten: on a store whose
    cells refer to earlier cells only, [setValueByPath] on the store and
    [setValueByPath] on trees give the same tree. *)

Section MapEntries.

Context {A B : Type}.

Variable f : A -> B.

Lemma lookup_map_values (k : string) (props : list (string * A)) :
  lookup k (map_values f props) = option_map f (lookup k props).
Proof.
  induction props as [| [k0 v0] rest IH]; simpl; [reflexivity |].
  destruct (String.eqb k k0); [reflexivity | exact IH].
Qed.

Lemma overwrite_map_values (k : string) (v : A) (props : list (string * A)) :
  overwrite k (f v) (map_values f props) = map_values f (overwrite k v props).
Proof.
  induction props as [| [k0 v0] rest IH]; simpl; [reflexivity |].
  destruct (String.eqb k k0); simpl; [reflexivity |].
  f_equal. exact IH.
Qed.

Lemma insert_index_map_values (i : Z) (k : string) (v : A) (props : list (string * A)) :
  insert_index i k (f v) (map_values f props) = map_values f (insert_index i k v props).
Proof.
  induction props as [| [k0 v0] rest IH]; simpl; [reflexivity |].
  destruct (array_index k0) as [j |]; [destruct (j <? i) |]; simpl;
    try reflexivity.
  f_equal. exact IH.
Qed.

Lemma define_property_map_values (k : string) (v : A) (props : list (string * A)) :
  define_property (map_values f props) k (f v) = map_values f (define_property props k v).
Proof.
  unfold define_property. rewrite lookup_map_values.
  destruct (lookup k props); simpl.
  - apply overwrite_map_values.
  - destruct (array_index k).
    + apply insert_index_map_values.
    + unfold map_values. rewrite map_app. reflexivity.
Qed.

Lemma indexed_from_map (l : list A) :
  forall i, indexed_from i (map f l) = map_values f (indexed_from i l).
Proof.
  induction l as [| x rest IH]; intros i; simpl; [reflexivity |].
  f_equal. apply IH.
Qed.

Lemma element_map (l : list A) (i : Z) :
  element (map f l) i = option_map f (element l i).
Proof. unfold element. apply nth_error_map. Qed.

End MapEntries.

Lemma trees_alloc (st : Store.store) (c : Store.cell) :
  Store.trees (st ++ [c])%list
  = (Store.trees st ++ [Store.tree_of_cell (Store.trees st) c])%list.
Proof. unfold Store.trees. rewrite fold_left_app. reflexivity. Qed.

Lemma length_trees (st : Store.store) : List.length (Store.trees st) = List.length st.
Proof.
  induction st as [| c st' IH] using rev_ind; [reflexivity |].
  rewrite trees_alloc, !length_app, IH. reflexivity.
Qed.

Lemma trees_extends (st ext : Store.store) :
  exists more, Store.trees (st ++ ext)%list = (Store.trees st ++ more)%list.
Proof.
  induction ext as [| c ext' IH] using rev_ind.
  - exists []. now rewrite !app_nil_r.
  - destruct IH as [more E].
    rewrite app_assoc, trees_alloc, E, <- app_assoc. eexists. reflexivity.
Qed.

Lemma below_mono (n m : nat) (v : Store.sval) :
  (n <= m)%nat -> Store.below n v = true -> Store.below m v = true.
Proof.
  destruct v; simpl; auto. intros Hle H.
  apply Nat.ltb_lt in H. apply Nat.ltb_lt. lia.
Qed.

Lemma cell_below_mono (n m : nat) (c : Store.cell) :
  (n <= m)%nat -> Store.cell_below n c = true -> Store.cell_below m c = true.
Proof.
  intros Hle. destruct c; simpl; rewrite !forallb_forall; intros H x Hx;
    eapply below_mono; eauto.
Qed.

Lemma tree_of_value_extends (ts more : list jsval) (v : Store.sval) :
  Store.below (List.length ts) v = true ->
  Store.tree_of_value (ts ++ more)%list v = Store.tree_of_value ts v.
Proof.
  destruct v; simpl; try reflexivity.
  intros H. apply Nat.ltb_lt in H. apply app_nth1. exact H.
Qed.

Lemma tree_of_cell_extends (ts more : list jsval) (c : Store.cell) :
  Store.cell_below (List.length ts) c = true ->
  Store.tree_of_cell (ts ++ more)%list c = Store.tree_of_cell ts c.
Proof.
  destruct c as [props | elements]; simpl; rewrite forallb_forall; intros H; f_equal.
  - unfold map_values. apply map_ext_in. intros entry Hin.
    rewrite tree_of_value_extends by (apply H; exact Hin). reflexivity.
  - apply map_ext_in. intros x Hin.
    apply tree_of_value_extends. apply H. exact Hin.
Qed.

Lemma ordered_from_alloc (st : list Store.cell) (c : Store.cell) :
  forall n,
    Store.ordered_from n (st ++ [c])%list
    = Store.ordered_from n st && Store.cell_below (n + List.length st) c.
Proof.
  induction st as [| c0 rest IH]; intros n; simpl.
  - now rewrite Nat.add_0_r, andb_true_r.
  - rewrite IH, Nat.add_succ_r, andb_assoc. reflexivity.
Qed.

Lemma ordered_alloc (st : Store.store) (c : Store.cell) :
  Store.ordered (st ++ [c])%list
  = Store.ordered st && Store.cell_below (List.length st) c.
Proof. unfold Store.ordered. now rewrite ordered_from_alloc. Qed.

(** In an ordered store, the cell at an address refers to cells below that
    address. *)
Lemma ordered_cell (st : Store.store) :
  Store.ordered st = true ->
  forall a c, nth_error st a = Some c -> Store.cell_below a c = true.
Proof.
  induction st as [| c' st' IH] using rev_ind; intros Hord a c Hc.
  - destruct a; discriminate.
  - rewrite ordered_alloc in Hord. apply andb_prop in Hord.
    destruct Hord as [Hord' Hc'].
    destruct (Nat.lt_ge_cases a (List.length st')) as [Hlt | Hge].
    + rewrite nth_error_app1 in Hc by exact Hlt. now apply IH.
    + rewrite nth_error_app2 in Hc by exact Hge.
      destruct (a - List.length st')%nat as [| m] eqn:E; simpl in Hc.
      * injection Hc as <-. replace a with (List.length st') by lia. exact Hc'.
      * destruct m; discriminate.
Qed.

(** In an ordered store, the tree at an address is the tree of the cell
    at that address. *)
Lemma tree_of_address (st : Store.store) :
  Store.ordered st = true ->
  forall a c,
    nth_error st a = Some c ->
    nth a (Store.trees st) VUndefined = Store.tree_of_cell (Store.trees st) c.
Proof.
  induction st as [| c' st' IH] using rev_ind; intros Hord a c Hc.
  - destruct a; discriminate.
  - pose proof (ordered_cell _ Hord _ _ Hc) as Hbelow.
    rewrite ordered_alloc in Hord. apply andb_prop in Hord.
    destruct Hord as [Hord' Hc'].
    rewrite trees_alloc.
    destruct (Nat.lt_ge_cases a (List.length st')) as [Hlt | Hge].
    + rewrite nth_error_app1 in Hc by exact Hlt.
      rewrite app_nth1 by (rewrite length_trees; exact Hlt).
      rewrite (IH Hord' _ _ Hc).
      symmetry. apply tree_of_cell_extends.
      eapply cell_below_mono; [| exact Hbelow]. rewrite length_trees. lia.
    + rewrite nth_error_app2 in Hc by exact Hge.
      destruct (a - List.length st')%nat as [| m] eqn:E; simpl in Hc.
      * injection Hc as <-.
        assert (Ha : a = List.length st') by lia. subst a.
        rewrite app_nth2 by (rewrite length_trees; lia).
        rewrite length_trees, Nat.sub_diag. simpl.
        symmetry. apply tree_of_cell_extends. now rewrite length_trees.
      * destruct m; discriminate.
Qed.

(** The tree of a value of the store is its tree in every extension. *)
Lemma tree_extends (st ext : Store.store) (v : Store.sval) :
  Store.below (List.length st) v = true ->
  Store.tree (st ++ ext)%list v = Store.tree st v.
Proof.
  intros H. unfold Store.tree.
  destruct (trees_extends st ext) as [more ->].
  apply tree_of_value_extends. now rewrite length_trees.
Qed.

Lemma code_units_trees (ts : list jsval) (s : string) :
  map (Store.tree_of_value ts) (Store.code_units s) = code_units s.
Proof. unfold Store.code_units, code_units. rewrite map_map. reflexivity. Qed.

Lemma below_cell (st : Store.store) (a : nat) :
  Store.below (List.length st) (Store.SRef a) = true ->
  exists c, nth_error st a = Some c.
Proof.
  simpl. intros H. apply Nat.ltb_lt in H.
  destruct (nth_error st a) as [c |] eqn:E; [eauto |].
  apply nth_error_None in E. lia.
Qed.

Section TreesOfAStore.

Variable st : Store.store.

Hypothesis Hordered : Store.ordered st = true.

Lemma tree_of_ref (a : nat) (c : Store.cell) :
  nth_error st a = Some c ->
  Store.tree st (Store.SRef a) = Store.tree_of_cell (Store.trees st) c.
Proof. intros H. unfold Store.tree. simpl. now apply tree_of_address. Qed.

Lemma own_entries_tree (v : Store.sval) :
  Store.below (List.length st) v = true ->
  own_entries (Store.tree st v) = map_values (Store.tree st) (Store.own_entries st v).
Proof.
  destruct v as [| | b | n | s | a]; try reflexivity.
  - intros _. simpl. rewrite <- indexed_from_map. unfold Store.tree.
    now rewrite code_units_trees.
  - intros H. destruct (below_cell _ _ H) as [c Hc].
    rewrite (tree_of_ref _ _ Hc). simpl. rewrite Hc.
    destruct c as [props | elements]; simpl; [reflexivity |].
    apply indexed_from_map.
Qed.

Lemma truthy_tree (v : Store.sval) :
  Store.below (List.length st) v = true ->
  truthy (Store.tree st v) = Store.truthy v.
Proof.
  destruct v as [| | b | n | s | a]; try reflexivity.
  intros H. destruct (below_cell _ _ H) as [c Hc].
  rewrite (tree_of_ref _ _ Hc). destruct c; reflexivity.
Qed.

Lemma nullish_tree (v : Store.sval) :
  Store.below (List.length st) v = true ->
  nullish (Store.tree st v) = Store.nullish v.
Proof.
  destruct v as [| | b | n | s | a]; try reflexivity.
  intros H. destruct (below_cell _ _ H) as [c Hc].
  rewrite (tree_of_ref _ _ Hc). destruct c; reflexivity.
Qed.

Lemma indexed_get_tree (l : list Store.sval) (k : string) :
  Store.tree st (Store.indexed_get l k) = indexed_get (map (Store.tree st) l) k.
Proof.
  unfold Store.indexed_get, indexed_get. rewrite length_map.
  destruct (array_index k) as [i |].
  - rewrite element_map. destruct (element l i); reflexivity.
  - destruct (String.eqb k "length"); reflexivity.
Qed.

Lemma get_property_tree (v : Store.sval) (k : string) :
  Store.below (List.length st) v = true ->
  Store.tree st (Store.get_property st v k) = get_property (Store.tree st v) k.
Proof.
  destruct v as [| | b | n | s | a]; try reflexivity.
  - intros _. simpl. rewrite indexed_get_tree. unfold Store.tree.
    now rewrite code_units_trees.
  - intros H. destruct (below_cell _ _ H) as [c Hc].
    rewrite (tree_of_ref _ _ Hc). unfold Store.tree. simpl. rewrite Hc.
    destruct c as [props | elements]; simpl.
    + rewrite lookup_map_values. destruct (lookup k props); reflexivity.
    + apply indexed_get_tree.
Qed.

Lemma lookup_In {A : Type} (k : string) (props : list (string * A)) (x : A) :
  lookup k props = Some x -> exists k', In (k', x) props.
Proof.
  induction props as [| [k0 v0] rest IH]; simpl; [discriminate |].
  destruct (String.eqb k k0).
  - intros H. injection H as ->. eauto.
  - intros H. destruct (IH H) as [k' Hin]. eauto.
Qed.

Lemma In_indexed_from {A : Type} (l : list A) :
  forall i entry, In entry (indexed_from i l) -> In (snd entry) l.
Proof.
  induction l as [| x rest IH]; intros i entry; simpl; [tauto |].
  intros [<- | H]; [left; reflexivity | right; eapply IH; exact H].
Qed.

Lemma indexed_get_below (n : nat) (l : list Store.sval) (k : string) :
  forallb (Store.below n) l = true -> Store.below n (Store.indexed_get l k) = true.
Proof.
  rewrite forallb_forall. intros H. unfold Store.indexed_get, element.
  destruct (array_index k) as [i |].
  - destruct (nth_error l (Z.to_nat i)) eqn:E; [| reflexivity].
    apply H. eapply nth_error_In. exact E.
  - destruct (String.eqb k "length"); reflexivity.
Qed.

Lemma code_units_below (n : nat) (s : string) :
  forallb (Store.below n) (Store.code_units s) = true.
Proof.
  apply forallb_forall. intros x Hx. unfold Store.code_units in Hx.
  apply in_map_iff in Hx. destruct Hx as [c [<- _]]. reflexivity.
Qed.

(** What is read from a value of the store is a value of the store. *)
Lemma get_property_below (v : Store.sval) (k : string) :
  Store.below (List.length st) v = true ->
  Store.below (List.length st) (Store.get_property st v k) = true.
Proof.
  destruct v as [| | b | n | s | a]; try reflexivity.
  - intros _. simpl. apply indexed_get_below, code_units_below.
  - intros H. simpl. destruct (nth_error st a) as [c |] eqn:Hc; [| reflexivity].
    pose proof (ordered_cell _ Hordered _ _ Hc) as Hb.
    apply Nat.ltb_lt in H.
    apply (cell_below_mono a (List.length st)) in Hb; [| lia].
    destruct c as [props | elements]; simpl in Hb.
    + destruct (lookup k props) as [x |] eqn:E; [| reflexivity].
      destruct (lookup_In _ _ _ E) as [k' Hin].
      rewrite forallb_forall in Hb. apply (Hb _ Hin).
    + now apply indexed_get_below.
Qed.

Lemma own_entries_below (v : Store.sval) :
  Store.below (List.length st) v = true ->
  forallb (fun entry => Store.below (List.length st) (snd entry))
          (Store.own_entries st v) = true.
Proof.
  destruct v as [| | b | n | s | a]; try reflexivity.
  - intros _. simpl. apply forallb_forall. intros entry Hin.
    apply In_indexed_from in Hin.
    pose proof (code_units_below (List.length st) s) as Hb.
    rewrite forallb_forall in Hb. now apply Hb.
  - intros H. simpl. destruct (nth_error st a) as [c |] eqn:Hc; [| reflexivity].
    pose proof (ordered_cell _ Hordered _ _ Hc) as Hb.
    apply Nat.ltb_lt in H.
    apply (cell_below_mono a (List.length st)) in Hb; [| lia].
    destruct c as [props | elements]; simpl in Hb; [exact Hb |].
    apply forallb_forall. intros entry Hin. apply In_indexed_from in Hin.
    rewrite forallb_forall in Hb. now apply Hb.
Qed.

End TreesOfAStore.

Lemma spread_with_tree (st : Store.store) (obj : Store.sval) (key : segment)
    (x : Store.sval) :
  Store.ordered st = true ->
  Store.below (List.length st) obj = true ->
  Store.below (List.length st) x = true ->
  Store.ordered (fst (Store.spread_with st obj key x)) = true
  /\ Store.below (List.length (fst (Store.spread_with st obj key x)))
       (snd (Store.spread_with st obj key x)) = true
  /\ Store.tree (fst (Store.spread_with st obj key x))
       (snd (Store.spread_with st obj key x))
     = spread_with (Store.tree st obj) key (Store.tree st x).
Proof.
  intros Hord Hobj Hx. unfold Store.spread_with, Store.alloc. cbn [fst snd].
  split; [| split].
  - rewrite ordered_alloc, Hord. simpl.
    apply forallb_forall. intros entry Hin.
    destruct (In_define_property _ _ _ _ Hin) as [-> | Hold]; [exact Hx |].
    pose proof (own_entries_below st Hord obj Hobj) as Hb.
    rewrite forallb_forall in Hb. now apply Hb.
  - simpl. apply Nat.ltb_lt. rewrite length_app. simpl. lia.
  - unfold Store.tree at 1. simpl. rewrite trees_alloc.
    rewrite app_nth2 by (rewrite length_trees; lia).
    rewrite length_trees, Nat.sub_diag. simpl.
    unfold spread_with. f_equal.
    rewrite (own_entries_tree st Hord obj Hobj).
    unfold Store.tree. now rewrite define_property_map_values.
Qed.

Lemma or_empty_object_tree (st : Store.store) (child : Store.sval) :
  Store.ordered st = true ->
  Store.below (List.length st) child = true ->
  Store.ordered (fst (Store.or_empty_object st child)) = true
  /\ Store.below (List.length (fst (Store.or_empty_object st child)))
       (snd (Store.or_empty_object st child)) = true
  /\ Store.tree (fst (Store.or_empty_object st child))
       (snd (Store.or_empty_object st child))
     = or_else (Store.tree st child) (VObject []).
Proof.
  intros Hord Hchild. unfold Store.or_empty_object, or_else.
  rewrite (truthy_tree st Hord child Hchild).
  destruct (Store.truthy child); cbn [fst snd Store.alloc].
  - auto.
  - split; [| split].
    + rewrite ordered_alloc, Hord. reflexivity.
    + simpl. apply Nat.ltb_lt. rewrite length_app. simpl. lia.
    + unfold Store.tree. simpl. rewrite trees_alloc.
      rewrite app_nth2 by (rewrite length_trees; lia).
      now rewrite length_trees, Nat.sub_diag.
Qed.

(** X19. [setValueByPath] on an ordered store and [setValueByPath] on trees
    agree: the store returned is ordered, and the tree of the value
    returned is what the function on trees returns for the trees of the
    arguments; and the one throws when the other does. *)
Theorem store_setValueByPath_tree (path : list segment) :
  forall (st : Store.store) (obj value : Store.sval),
    Store.ordered st = true ->
    Store.below (List.length st) obj = true ->
    Store.below (List.length st) value = true ->
    match Store.setValueByPath st obj path value with
    | Return r =>
        Store.ordered (fst r) = true
        /\ Store.below (List.length (fst r)) (snd r) = true
        /\ setValueByPath (Store.tree st obj) path (Store.tree st value)
           = Return (Store.tree (fst r) (snd r))
    | Throw e =>
        setValueByPath (Store.tree st obj) path (Store.tree st value) = Throw e
    end.
Proof.
  induction path as [| key remaining IH]; intros st obj value Hord Hobj Hvalue.
  - simpl. auto.
  - destruct remaining as [| next more].
    + cbn [Store.setValueByPath setValueByPath].
      destruct (spread_with_tree st obj key value Hord Hobj Hvalue) as [H1 [H2 H3]].
      rewrite H3. auto.
    + rewrite store_setValueByPath_deeper, setValueByPath_deeper.
      unfold Store.get, get. rewrite (nullish_tree st Hord obj Hobj).
      destruct (Store.nullish obj) eqn:Hnull; cbn [bind].
      * destruct obj; try discriminate; reflexivity.
      * rewrite <- (get_property_tree st Hord obj _ Hobj).
        pose proof (get_property_below st Hord obj (ToPropertyKey key) Hobj) as Hchild.
        destruct (or_empty_object_tree st _ Hord Hchild) as [Hord1 [Htarget Htree1]].
        destruct (store_or_empty_object_extends st
                    (Store.get_property st obj (ToPropertyKey key))) as [ext1 Hext1].
        assert (Hvalue1 : Store.below
                            (List.length (fst (Store.or_empty_object st
                               (Store.get_property st obj (ToPropertyKey key)))))
                            value = true).
        { rewrite Hext1. eapply below_mono; [| exact Hvalue].
          rewrite length_app. lia. }
        pose proof (IH _ _ value Hord1 Htarget Hvalue1) as Hinner.
        assert (Htv : Store.tree
                        (fst (Store.or_empty_object st
                                (Store.get_property st obj (ToPropertyKey key))))
                        value
                      = Store.tree st value)
          by (rewrite Hext1; apply tree_extends; exact Hvalue).
        rewrite Htree1, Htv in Hinner.
        destruct (Store.setValueByPath _ _ (next :: more) value) as [r2 | e] eqn:E;
          cbn [bind].
        -- destruct Hinner as [Hord2 [Hupd Hpure]].
           rewrite Hpure. cbn [bind].
           destruct (store_setValueByPath_extends _ _ _ _ _ E) as [ext2 Hext2].
           rewrite Hext1, <- app_assoc in Hext2.
           assert (Hobj2 : Store.below (List.length (fst r2)) obj = true).
           { rewrite Hext2. eapply below_mono; [| exact Hobj].
             rewrite length_app. lia. }
           destruct (spread_with_tree (fst r2) obj key (snd r2) Hord2 Hobj2 Hupd)
             as [Hord3 [Hres Htree3]].
           split; [exact Hord3 |]. split; [exact Hres |].
           rewrite Htree3. f_equal. f_equal.
           rewrite Hext2. symmetry. apply tree_extends. exact Hobj.
        -- rewrite Hinner. reflexivity.
Qed.

(** X20. [getValueByPath] on an ordered store and on trees agree: what is
    read from the store is a value of the store, and its tree is what is
    read from the tree of the document. *)
Theorem store_getValueByPath_tree (st : Store.store) (path : list segment) :
  Store.ordered st = true ->
  forall obj,
    Store.below (List.length st) obj = true ->
    Store.below (List.length st) (Store.getValueByPath st obj path) = true
    /\ Store.tree st (Store.getValueByPath st obj path)
       = getValueByPath (Store.tree st obj) path.
Proof.
  intros Hord.
  induction path as [| seg rest IH]; intros obj Hobj; [auto |].
  rewrite store_getValueByPath_cons, getValueByPath_cons.
  assert (Hstep : Store.below (List.length st) (Store.optional_get st obj seg) = true
                  /\ Store.tree st (Store.optional_get st obj seg)
                     = optional_get (Store.tree st obj) seg).
  { unfold Store.optional_get, optional_get.
    rewrite (nullish_tree st Hord obj Hobj).
    destruct (Store.nullish obj); [auto |].
    split; [now apply get_property_below | now apply get_property_tree]. }
  destruct Hstep as [Hbelow Htree].
  rewrite <- Htree. apply IH. exact Hbelow.
Qed.

Lemma store_setValueByPath_tree_witness :
  let st := [Store.ArrayCell [Store.SString "x"; Store.SString "y"];
             Store.ObjectCell [("name", Store.SString "Ada"); ("tags", Store.SRef 0)];
             Store.ObjectCell [("customer", Store.SRef 1)]] in
  Store.tree st (Store.SRef 2)
  = VObject [("customer",
              VObject [("name", VString "Ada");
                       ("tags", VArray [VString "x"; VString "y"])])]
  /\ match Store.setValueByPath st (Store.SRef 2) [Key "customer"; Key "name"]
             (Store.SString "Grace") with
     | Return r =>
         Store.ordered (fst r) = true
         /\ Store.below (List.length (fst r)) (snd r) = true
         /\ setValueByPath (Store.tree st (Store.SRef 2)) [Key "customer"; Key "name"]
              (Store.tree st (Store.SString "Grace"))
            = Return (Store.tree (fst r) (snd r))
     | Throw e =>
         setValueByPath (Store.tree st (Store.SRef 2)) [Key "customer"; Key "name"]
           (Store.tree st (Store.SString "Grace")) = Throw e
     end.
Proof.
  intros st. split; [reflexivity |].
  apply (store_setValueByPath_tree [Key "customer"; Key "name"] st (Store.SRef 2)
           (Store.SString "Grace")); reflexivity.
Defined.

(** ** The path display *)

Lemma string_app_assoc (a b c : string) : ((a ++ b) ++ c)%string = (a ++ b ++ c)%string.
Proof. induction a as [| x a' IH]; simpl; [reflexivity | now rewrite IH]. Qed.

Lemma string_app_empty (a : string) : (a ++ "")%string = a.
Proof. induction a as [| x a' IH]; simpl; [reflexivity | now rewrite IH]. Qed.

(** The joined segments between the outer brackets are the segments each
    between its own brackets. *)
Lemma array_join_brackets (rest : list segment) :
  forall seg,
    ("[" ++ array_join "][" (path_segments (seg :: rest)) ++ "]")%string
    = String.concat "" (map bracketed (seg :: rest)).
Proof.
  induction rest as [| next more IH]; intros seg.
  - destruct seg as [s | n]; simpl; rewrite ?string_app_assoc; reflexivity.
  - specialize (IH next).
    change (String.concat "" (map bracketed (seg :: next :: more)))
      with (bracketed seg ++ "" ++ String.concat "" (map bracketed (next :: more)))%string.
    rewrite <- IH.
    change (array_join "][" (path_segments (seg :: next :: more)))
      with (array_join "][" (path_segments [seg]) ++ "]["
            ++ array_join "][" (path_segments (next :: more)))%string.
    destruct seg as [s | n]; simpl; rewrite ?string_app_assoc; simpl;
      rewrite ?string_app_assoc; reflexivity.
Qed.

(** X1. The path display is "$" followed by every segment between
    brackets, a number as its digits and a string between double quotes;
    an absent path and the empty path are displayed as "$". *)
Theorem jsonPathToString_brackets (path : option (list segment)) :
  jsonPathToString path
  = ("$" ++ String.concat ""
            (map bracketed (match path with Some p => p | None => [] end)))%string.
Proof.
  destruct path as [[| seg rest] |]; try reflexivity.
  rewrite <- array_join_brackets. reflexivity.
Qed.

Example jsonPathToString_examples :
  jsonPathToString (Some []) = "$"
  /\ jsonPathToString (Some [Key "customer"; Index (Double.of_Z 0); Key "id"])
     = ("$[" ++ dq ++ "customer" ++ dq ++ "][0][" ++ dq ++ "id" ++ dq ++ "]")%string.
Proof. split; vm_compute; reflexivity. Qed.

Lemma concat_brackets_app (p q : list segment) :
  String.concat "" (map bracketed (p ++ q)%list)
  = (String.concat "" (map bracketed p) ++ String.concat "" (map bracketed q))%string.
Proof.
  induction p as [| seg rest IH]; [reflexivity |].
  destruct rest as [| next more].
  - simpl. destruct q as [| b q']; simpl; [now rewrite string_app_empty | reflexivity].
  - change (String.concat "" (map bracketed ((seg :: next :: more) ++ q)%list))
      with (bracketed seg ++ "" ++ String.concat "" (map bracketed ((next :: more) ++ q)%list))%string.
    rewrite IH. simpl. symmetry. apply string_app_assoc.
Qed.

(** X2. The path display does not escape a key: a key that contains the
    text between two keys is displayed as two keys are, so that two
    different paths have the same display. *)
Theorem jsonPathToString_does_not_escape (pre post : list segment) (a b : string) :
  jsonPathToString (Some (pre ++ Key (a ++ dq ++ "][" ++ dq ++ b) :: post)%list)
  = jsonPathToString (Some (pre ++ Key a :: Key b :: post)%list).
Proof.
  assert (Hone : forall tail,
             String.concat "" (map bracketed (Key (a ++ dq ++ "][" ++ dq ++ b) :: tail))
             = String.concat "" (map bracketed (Key a :: Key b :: tail))).
  { intros tail.
    change (Key (a ++ dq ++ "][" ++ dq ++ b) :: tail)
      with ([Key (a ++ dq ++ "][" ++ dq ++ b)] ++ tail)%list.
    change (Key a :: Key b :: tail) with ([Key a; Key b] ++ tail)%list.
    rewrite !concat_brackets_app. f_equal.
    simpl. rewrite ?string_app_assoc. simpl. rewrite ?string_app_assoc.
    reflexivity. }
  assert (Hlist : forall l,
             jsonPathToString (Some l)
             = ("$" ++ String.concat "" (map bracketed l))%string).
  { intros [| seg rest]; [reflexivity |].
    unfold jsonPathToString. rewrite <- array_join_brackets. reflexivity. }
  rewrite !Hlist, !concat_brackets_app, Hone. reflexivity.
Qed.

(** ** More on replacing *)

Lemma define_property_empty {A : Type} (k : string) (v : A) :
  define_property [] k v = [(k, v)].
Proof. unfold define_property. simpl. now destruct (array_index k). Qed.

(** X3. On a document that is [null] or [undefined], [setValueByPath]
    returns the value for the empty path and an object of one key for a
    path of one segment (the spread of [null] copies nothing), and it
    fails for every longer path: the failure is the read of the first
    key. *)
Theorem setValueByPath_on_null (obj : jsval) (path : list segment) (value : jsval) :
  nullish obj = true ->
  setValueByPath obj path value
  = match path with
    | [] => Return value
    | [key] => Return (VObject [(ToPropertyKey key, value)])
    | key :: _ :: _ => Throw (TypeError obj (ToPropertyKey key))
    end.
Proof.
  intros Hn.
  assert (Hnone : own_entries obj = []) by (destruct obj; try discriminate; reflexivity).
  destruct path as [| key [| next more]].
  - reflexivity.
  - simpl. unfold spread_with. now rewrite Hnone, define_property_empty.
  - rewrite setValueByPath_deeper. unfold get. rewrite Hn. reflexivity.
Qed.

Lemma setValueByPath_on_null_witness :
  nullish VNull = true
  /\ setValueByPath VNull [Key "a"; Key "b"] (VBoolean true) = Throw (TypeError VNull "a").
Proof.
  split; [reflexivity |].
  apply (setValueByPath_on_null VNull [Key "a"; Key "b"] (VBoolean true)).
  reflexivity.
Defined.

Example setValueByPath_on_null_examples :
  setValueByPath VNull [] (VBoolean true) = Return (VBoolean true)
  /\ setValueByPath VNull [Key "a"] (VBoolean true)
     = Return (VObject [("a", VBoolean true)])
  /\ setValueByPath VUndefined [Index (Double.of_Z 0); Key "b"] (VBoolean true)
     = Throw (TypeError VUndefined "0").
Proof. repeat split; reflexivity. Qed.

(** X4. Whenever [setValueByPath] returns, on any document and any path,
    present in the document or not, what it returns holds the whole path
    as own properties, one object below the other, and the path reads
    back the value. *)
Theorem setValueByPath_result_holds_the_path (p : list segment) :
  forall (D v updated : jsval),
    setValueByPath D p v = Return updated ->
    present updated p = true /\ getValueByPath updated p = v.
Proof.
  induction p as [| key rest IH]; intros D v updated H.
  - simpl in H. injection H as <-. split; reflexivity.
  - assert (Hinner : exists inner,
               updated = spread_with D key inner
               /\ present inner rest = true /\ getValueByPath inner rest = v).
    { destruct rest as [| next more].
      - simpl in H. injection H as <-. exists v. repeat split.
      - rewrite setValueByPath_deeper in H.
        destruct (get D key) as [child |]; cbn [bind] in H; [| discriminate].
        destruct (setValueByPath (or_else child (VObject [])) (next :: more) v)
          as [inner |] eqn:E; cbn [bind] in H; [| discriminate].
        injection H as <-. exists inner. split; [reflexivity |].
        exact (IH _ _ _ E). }
    destruct Hinner as [inner [-> [Hpresent Hread]]].
    assert (Hown : own (spread_with D key inner) (ToPropertyKey key) = Some inner).
    { unfold spread_with. simpl. apply lookup_define_same. }
    split.
    + cbn [present]. rewrite Hown. exact Hpresent.
    + rewrite getValueByPath_cons, (optional_get_own _ _ _ Hown). exact Hread.
Qed.

Lemma setValueByPath_result_holds_the_path_witness :
  let D := VObject [("customer", VObject [("name", VString "Ada")])] in
  let p := [Key "customer"; Key "orders"; Index (Double.of_Z 0)] in
  let updated :=
    VObject [("customer",
              VObject [("name", VString "Ada");
                       ("orders", VObject [("0", VNull)])])] in
  present D p = false
  /\ setValueByPath D p VNull = Return updated
  /\ present updated p = true
  /\ getValueByPath updated p = VNull.
Proof.
  intros D p updated. split; [reflexivity |]. split; [reflexivity |].
  apply (setValueByPath_result_holds_the_path p D VNull updated). reflexivity.
Defined.

Section DefineTwice.

Context {A : Type}.

Variables (k : string) (v1 v2 : A).

Lemma overwrite_overwrite (props : list (string * A)) :
  overwrite k v2 (overwrite k v1 props) = overwrite k v2 props.
Proof.
  induction props as [| [k0 v0] rest IH]; simpl; [reflexivity |].
  destruct (String.eqb k k0) eqn:E; simpl; rewrite E; [reflexivity |].
  now rewrite IH.
Qed.

Lemma overwrite_insert_index (i : Z) (props : list (string * A)) :
  lookup k props = None ->
  overwrite k v2 (insert_index i k v1 props) = insert_index i k v2 props.
Proof.
  induction props as [| [k0 v0] rest IH]; simpl; intros Hnone.
  - now rewrite String.eqb_refl.
  - destruct (String.eqb k k0) eqn:E; [discriminate |].
    destruct (array_index k0) as [j |]; [destruct (j <? i) |]; simpl;
      rewrite ?E, ?String.eqb_refl; try reflexivity.
    now rewrite IH.
Qed.

Lemma overwrite_app (props : list (string * A)) :
  lookup k props = None ->
  overwrite k v2 (props ++ [(k, v1)])%list = (props ++ [(k, v2)])%list.
Proof.
  induction props as [| [k0 v0] rest IH]; simpl; intros Hnone.
  - now rewrite String.eqb_refl.
  - destruct (String.eqb k k0) eqn:E; [discriminate |]. now rewrite IH.
Qed.

(** Defining a key twice is defining it once, with the second value. *)
Lemma define_property_twice (props : list (string * A)) :
  define_property (define_property props k v1) k v2 = define_property props k v2.
Proof.
  unfold define_property at 1. rewrite lookup_define_same.
  unfold define_property.
  destruct (lookup k props) eqn:E.
  - apply overwrite_overwrite.
  - destruct (array_index k).
    + now apply overwrite_insert_index.
    + now apply overwrite_app.
Qed.

End DefineTwice.

Lemma spread_with_twice (obj : jsval) (key : segment) (x y : jsval) :
  spread_with (spread_with obj key x) key y = spread_with obj key y.
Proof. unfold spread_with. simpl. now rewrite define_property_twice. Qed.

(** X6. The last write wins: after a replacement at a path, a second
    replacement at the same path gives what it gives on the document
    before the first. *)
Theorem setValueByPath_last_write_wins (p : list segment) :
  forall (D D1 v1 v2 : jsval),
    setValueByPath D p v1 = Return D1 ->
    setValueByPath D1 p v2 = setValueByPath D p v2.
Proof.
  induction p as [| key rest IH]; intros D D1 v1 v2 H; [reflexivity |].
  destruct rest as [| next more].
  - simpl in H. injection H as <-. simpl. now rewrite spread_with_twice.
  - rewrite setValueByPath_deeper in H. unfold get in H.
    destruct (nullish D) eqn:Hn; cbn [bind] in H; [discriminate |].
    destruct (setValueByPath _ (next :: more) v1) as [inner |] eqn:E;
      cbn [bind] in H; [| discriminate].
    injection H as <-.
    rewrite !setValueByPath_deeper. unfold get. rewrite Hn. simpl nullish.
    cbn [bind]. change (get_property (spread_with D key inner) (ToPropertyKey key))
      with (optional_get (spread_with D key inner) key).
    rewrite optional_get_spread_same.
    destruct (setValueByPath_shape _ _ _ _ _ E) as [x Hx].
    replace (or_else inner (VObject [])) with inner by (rewrite Hx; reflexivity).
    rewrite (IH _ _ _ v2 E).
    destruct (setValueByPath _ (next :: more) v2) as [inner2 |]; cbn [bind];
      [| reflexivity].
    now rewrite spread_with_twice.
Qed.

Lemma setValueByPath_last_write_wins_witness :
  let D := VObject [("a", VArray [VNull]); ("b", VNull)] in
  let p := [Key "a"; Index (Double.of_Z 0)] in
  let D1 := VObject [("a", VObject [("0", VString "first")]); ("b", VNull)] in
  setValueByPath D p (VString "first") = Return D1
  /\ setValueByPath D1 p (VString "second") = setValueByPath D p (VString "second").
Proof.
  intros D p D1. split; [reflexivity |].
  apply (setValueByPath_last_write_wins p D D1 (VString "first") (VString "second")).
  reflexivity.
Defined.

(** ** More on the content view *)

Lemma lookup_none_keys {A : Type} (k : string) (props : list (string * A)) :
  lookup k props = None <-> existsb (String.eqb k) (map fst props) = false.
Proof.
  induction props as [| [k0 v0] rest IH]; simpl; [tauto |].
  destruct (String.eqb k k0); simpl; [split; discriminate | exact IH].
Qed.

Lemma keys_overwrite {A : Type} (k : string) (v : A) (props : list (string * A)) :
  map fst (overwrite k v props) = map fst props.
Proof.
  induction props as [| [k0 v0] rest IH]; simpl; [reflexivity |].
  destruct (String.eqb k k0); simpl; [reflexivity | now rewrite IH].
Qed.

Lemma distinct_keys_by_keys (a b : properties) :
  map fst a = map fst b -> distinct_keys a = distinct_keys b.
Proof.
  revert b. induction a as [| [k v] a' IH]; intros [| [k' v'] b']; simpl;
    try discriminate; [reflexivity |].
  intros H. injection H as -> Hrest. rewrite Hrest, (IH _ Hrest). reflexivity.
Qed.

Lemma keys_insert_index (x : string) (i : Z) (k : string) (v : jsval)
    (props : properties) :
  existsb (String.eqb x) (map fst (insert_index i k v props))
  = String.eqb x k || existsb (String.eqb x) (map fst props).
Proof.
  induction props as [| [k0 v0] rest IH]; simpl; [reflexivity |].
  destruct (array_index k0) as [j |]; [destruct (j <? i) |]; simpl;
    try reflexivity.
  rewrite IH. destruct (String.eqb x k0), (String.eqb x k); reflexivity.
Qed.

Lemma distinct_keys_insert_index (i : Z) (k : string) (v : jsval) (props : properties) :
  lookup k props = None -> distinct_keys props = true ->
  distinct_keys (insert_index i k v props) = true.
Proof.
  induction props as [| [k0 v0] rest IH]; simpl; intros Hnone Hd; [reflexivity |].
  destruct (String.eqb k k0) eqn:E; [discriminate |].
  apply andb_prop in Hd. destruct Hd as [Hfresh Hrest].
  assert (Hk : existsb (String.eqb k) (map fst rest) = false)
    by now apply lookup_none_keys.
  destruct (array_index k0) as [j |]; [destruct (j <? i) |]; simpl.
  - rewrite keys_insert_index, String.eqb_sym, E. simpl.
    rewrite Hfresh. simpl. now apply IH.
  - rewrite E, Hk, Hfresh, Hrest. reflexivity.
  - rewrite E, Hk, Hfresh, Hrest. reflexivity.
Qed.

Lemma distinct_keys_app_fresh (k : string) (v : jsval) (props : properties) :
  lookup k props = None -> distinct_keys props = true ->
  distinct_keys (props ++ [(k, v)])%list = true.
Proof.
  induction props as [| [k0 v0] rest IH]; simpl; intros Hnone Hd; [reflexivity |].
  destruct (String.eqb k k0) eqn:E; [discriminate |].
  apply andb_prop in Hd. destruct Hd as [Hfresh Hrest].
  rewrite existsb_key_app. simpl. rewrite String.eqb_sym, E, orb_false_r.
  rewrite Hfresh. simpl. now apply IH.
Qed.

(** A definition keeps the keys of an object distinct. *)
Lemma distinct_keys_define (props : properties) (k : string) (v : jsval) :
  distinct_keys props = true -> distinct_keys (define_property props k v) = true.
Proof.
  intros Hd. unfold define_property.
  destruct (lookup k props) eqn:E.
  - rewrite (distinct_keys_by_keys _ props); [exact Hd | apply keys_overwrite].
  - destruct (array_index k).
    + now apply distinct_keys_insert_index.
    + now apply distinct_keys_app_fresh.
Qed.

Lemma distinct_keys_add_row (obj : properties) (row : NodeRow) :
  distinct_keys obj = true -> distinct_keys (add_row obj row) = true.
Proof.
  intros Hd. unfold add_row, assign.
  destruct (negb (is_array (type row)) && negb (is_object (type row))); [| exact Hd].
  destruct (key row) as [k |]; [| exact Hd].
  destruct (truthy_key (Some k)); [| exact Hd].
  destruct (String.eqb k "__proto__"); [exact Hd |].
  now apply distinct_keys_define.
Qed.

(** X7. Whatever the rows, the object that the content view renders has
    no key twice. *)
Theorem normalizeNodeData_keys_are_distinct (rows : list NodeRow) :
  distinct_keys (fold_left add_row rows []) = true.
Proof.
  assert (H : forall acc, distinct_keys acc = true ->
                          distinct_keys (fold_left add_row rows acc) = true).
  { induction rows as [| row rest IH]; intros acc Hacc; simpl; [exact Hacc |].
    apply IH. now apply distinct_keys_add_row. }
  apply H. reflexivity.
Qed.

Lemma lookup_add_row (k : string) (obj : properties) (row : NodeRow) :
  k <> "__proto__" ->
  lookup k (add_row obj row)
  = if contributes row && String.eqb (key_text row) k then Some (value row)
    else lookup k obj.
Proof.
  intros Hk. destruct (contributes row) eqn:C; simpl.
  - rewrite (contributes_add_row _ _ C). unfold assign.
    destruct (String.eqb (key_text row) k) eqn:E.
    + apply String.eqb_eq in E. rewrite E.
      apply String.eqb_neq in Hk. rewrite Hk. apply lookup_define_same.
    + apply String.eqb_neq in E.
      destruct (String.eqb (key_text row) "__proto__"); [reflexivity |].
      apply lookup_define_other. congruence.
  - now rewrite (skipped_add_row _ _ C).
Qed.

(** X8. In the object that the content view renders, a key other than
    [__proto__] has the value of the last row that contributes it, and is
    absent when no row contributes it. *)
Theorem normalizeNodeData_last_row_wins (rows : list NodeRow) (k : string) :
  k <> "__proto__" ->
  lookup k (fold_left add_row rows []) = last_value k rows.
Proof.
  intros Hk. unfold last_value.
  assert (H : forall acc found,
             lookup k acc = found ->
             lookup k (fold_left add_row rows acc)
             = fold_left
                 (fun found row =>
                    if contributes row && String.eqb (key_text row) k
                    then Some (value row) else found) rows found).
  { induction rows as [| row rest IH]; intros acc found Hacc; simpl; [exact Hacc |].
    apply IH. rewrite (lookup_add_row _ _ _ Hk), Hacc. reflexivity. }
  apply H. reflexivity.
Qed.

Lemma normalizeNodeData_last_row_wins_witness :
  let rows :=
    [{| key := Some "a"; value := VNumber (Double.of_Z 1); type := number_type |};
     {| key := Some "b"; value := VNull; type := null_type |};
     {| key := Some "a"; value := VArray []; type := array_type |};
     {| key := Some "a"; value := VString "x"; type := string_type |};
     {| key := None; value := VString "y"; type := string_type |}] in
  "a" <> "__proto__"
  /\ last_value "a" rows = Some (VString "x")
  /\ lookup "a" (fold_left add_row rows []) = last_value "a" rows.
Proof.
  intros rows. split; [discriminate |]. split; [reflexivity |].
  apply (normalizeNodeData_last_row_wins rows "a"). discriminate.
Defined.

(** ** More on coercion and saving *)

(** X9. A coercion returns a scalar that [JSON.stringify] writes as it is,
    never NaN, an array, an object or [undefined]; it fails for the type
    [number] only, with the error "Invalid number". *)
Theorem parseJsonValue_scalar_or_invalid_number (value type : string) :
  match parseJsonValue value type with
  | Return v => json_scalar v = true
  | Throw e => type = "number" /\ e = Error "Invalid number"
  end.
Proof.
  unfold parseJsonValue.
  destruct (String.eqb type "boolean"); [reflexivity |].
  destruct (String.eqb type "number") eqn:E.
  - apply String.eqb_eq in E.
    destruct (isNaN (Number value)) eqn:N; simpl; [auto | now rewrite N].
  - destruct (String.eqb type "null"); reflexivity.
Qed.

Lemma parseJsonValue_returns_scalar (value type : string) (v : jsval) :
  parseJsonValue value type = Return v -> json_scalar v = true.
Proof.
  unfold parseJsonValue.
  destruct (String.eqb type "boolean"); [intros H; now injection H as <- |].
  destruct (String.eqb type "number").
  - destruct (isNaN (Number value)) eqn:N; [discriminate |].
    intros H. injection H as <-. simpl. now rewrite N.
  - destruct (String.eqb type "null"); intros H; now injection H as <-.
Qed.

Lemma json_scalar_is_written (v : jsval) :
  json_scalar v = true -> exists t, JSON_stringify v 2 = Some t.
Proof.
  destruct v; simpl; try discriminate; intros _; eexists; reflexivity.
Qed.

Lemma save_steps_is_written (stored value type : string) (node_path : list segment)
    (updated : jsval) :
  save_steps stored value type node_path = Return updated ->
  exists t, JSON_stringify updated 2 = Some t.
Proof.
  unfold save_steps.
  destruct (JSON_parse stored) as [json |]; cbn [bind]; [| discriminate].
  destruct (parseJsonValue value type) as [newValue |] eqn:Hs; cbn [bind];
    [| discriminate].
  destruct node_path as [| key rest]; intros H.
  - simpl in H. injection H as <-.
    apply json_scalar_is_written. eapply parseJsonValue_returns_scalar. exact Hs.
  - destruct (setValueByPath_returns_object _ _ _ _ _ H) as [props ->].
    eexists. reflexivity.
Qed.

Section SaveOutcome.

Import Modal.

Variable w : World.

(** X10. [handleSave] never throws, shows exactly one toast, and leaves
    the selected node, the stored text and the two edit fields as they
    are. *)
Theorem handleSave_shows_one_toast :
  fst (handleSave w) = Return tt
  /\ (exists t, toasts (snd (handleSave w)) = (toasts w ++ [t])%list)
  /\ selectedNode (snd (handleSave w)) = selectedNode w
  /\ stored_json (snd (handleSave w)) = stored_json w
  /\ editValue (snd (handleSave w)) = editValue w
  /\ editType (snd (handleSave w)) = editType w.
Proof.
  destruct (path_of (selectedNode w)) as [node_path |] eqn:Hpath.
  - destruct (save_steps (stored_json w) (editValue w) (editType w) node_path)
      as [updated | e] eqn:Hsteps.
    + rewrite (handleSave_success w _ _ Hpath Hsteps).
      split; [reflexivity |]. split; [eexists; reflexivity |]. repeat split.
    + rewrite (handleSave_failure w _ _ Hpath Hsteps).
      split; [reflexivity |]. split; [eexists; reflexivity |]. repeat split.
  - rewrite (handleSave_without_path w Hpath).
    split; [reflexivity |]. split; [eexists; reflexivity |]. repeat split.
Qed.

(** X11. [handleSave] hands the file store nothing, or one text with the
    change flag set, never [undefined]; in the first case the editing flag
    and the modal are as before, in the second the editing state is left
    and the modal closed. *)
Theorem handleSave_writes_a_text_or_nothing :
  (written (snd (handleSave w)) = written w
   /\ isEditing (snd (handleSave w)) = isEditing w
   /\ closed (snd (handleSave w)) = closed w)
  \/ (exists t,
        written (snd (handleSave w)) = (written w ++ [(Some t, true)])%list
        /\ isEditing (snd (handleSave w)) = false
        /\ closed (snd (handleSave w)) = true).
Proof.
  destruct (path_of (selectedNode w)) as [node_path |] eqn:Hpath.
  - destruct (save_steps (stored_json w) (editValue w) (editType w) node_path)
      as [updated | e] eqn:Hsteps.
    + right. destruct (save_steps_is_written _ _ _ _ _ Hsteps) as [t Ht].
      exists t. rewrite (handleSave_success w _ _ Hpath Hsteps).
      unfold bindM, setContents, show, setIsEditing, onClose. simpl.
      rewrite Ht. repeat split.
    + left. rewrite (handleSave_failure w _ _ Hpath Hsteps). repeat split.
  - left. rewrite (handleSave_without_path w Hpath). repeat split.
Qed.

End SaveOutcome.

(** ** The controls of the modal *)

Lemma only_save_writes (c : Editor.control) (w : Modal.World) :
  c <> Editor.Save -> Modal.written (snd (Editor.handler c w)) = Modal.written w.
Proof. destruct c; intros H; try reflexivity. congruence. Qed.

(** The edit form is on the screen only for a node with a non-empty
    path. *)
Lemma edit_form_has_a_path (w : Modal.World) :
  Editor.render w = Editor.EditForm ->
  Modal.isEditing w = true
  /\ exists seg rest, Modal.path_of (Modal.selectedNode w) = Some (seg :: rest).
Proof.
  unfold Editor.render.
  destruct (Modal.selectedNode w) as [nodeData |]; [| discriminate].
  destruct (Modal.isEditing w); simpl; [| discriminate].
  unfold Modal.isRootNode.
  destruct (path nodeData) as [[| seg rest] |]; simpl; try discriminate.
  intros _. split; [reflexivity |]. eauto.
Qed.

(** X12. While the root of the document is selected (a node without a
    path or with the empty path), no control of the modal that is on the
    screen writes the document or enters the editing state: the edit
    button is not shown, and what is shown only closes the modal. *)
Theorem root_is_not_editable (w w' : Modal.World) (nodeData : NodeData)
    (c : Editor.control) :
  Modal.selectedNode w = Some nodeData ->
  Modal.isRootNode nodeData = true ->
  Editor.use c w = Some w' ->
  Modal.written w' = Modal.written w
  /\ Modal.isEditing w' = Modal.isEditing w
  /\ Modal.closed w' = true.
Proof.
  intros Hnode Hroot. unfold Editor.use, Editor.render.
  rewrite Hnode, Hroot, andb_false_r. simpl.
  destruct c; simpl; try discriminate; intros H; injection H as <-; repeat split.
Qed.

Lemma root_is_not_editable_witness :
  let root := {| path := Some []; text := [] |} in
  let w := {| Modal.selectedNode := Some root;
              Modal.stored_json := "{}";
              Modal.editValue := "x";
              Modal.editType := "string";
              Modal.isEditing := true;
              Modal.written := [];
              Modal.toasts := [];
              Modal.closed := false |} in
  Editor.use Editor.Save w = None
  /\ Editor.use Editor.EditNode w = None
  /\ exists w',
       Editor.use Editor.CloseView w = Some w'
       /\ Modal.written w' = Modal.written w
       /\ Modal.isEditing w' = Modal.isEditing w
       /\ Modal.closed w' = true.
Proof.
  intros root w. split; [reflexivity |]. split; [reflexivity |].
  eexists. split; [reflexivity |].
  apply (root_is_not_editable w _ root Editor.CloseView); reflexivity.
Defined.

Lemma save_steps_replaced (stored value type : string) (node_path : list segment)
    (updated : jsval) :
  save_steps stored value type node_path = Return updated ->
  exists json newValue, setValueByPath json node_path newValue = Return updated.
Proof.
  unfold save_steps.
  destruct (JSON_parse stored) as [json |]; cbn [bind]; [| discriminate].
  destruct (parseJsonValue value type) as [newValue |]; cbn [bind]; [| discriminate].
  eauto.
Qed.

(** X13. Whatever control of the modal is used, the document is not
    written, or it is written once and the text written is that of an
    object: a save from the edit form makes the root of the document an
    object, whatever it was. *)
Theorem controls_write_an_object (w w' : Modal.World) (c : Editor.control) :
  Editor.use c w = Some w' ->
  Modal.written w' = Modal.written w
  \/ exists props,
       Modal.written w'
       = (Modal.written w ++ [(JSON_stringify (VObject props) 2, true)])%list.
Proof.
  unfold Editor.use.
  destruct (Editor.shown (Editor.render w) c) eqn:Hshown; [| discriminate].
  intros H. injection H as <-.
  assert (Hcases : c = Editor.Save \/ c <> Editor.Save)
    by (destruct c; (left; reflexivity) || (right; discriminate)).
  destruct Hcases as [-> | Hother]; [| left; now apply only_save_writes].
  assert (Hform : Editor.render w = Editor.EditForm)
    by (destruct (Editor.render w); simpl in Hshown; congruence).
  destruct (edit_form_has_a_path _ Hform) as [_ [seg [rest Hpath]]].
  simpl Editor.handler.
  destruct (save_steps (Modal.stored_json w) (Modal.editValue w) (Modal.editType w)
              (seg :: rest)) as [updated | e] eqn:Hsteps.
  - right. rewrite (handleSave_success w _ _ Hpath Hsteps).
    destruct (save_steps_replaced _ _ _ _ _ Hsteps) as [json [newValue Hset]].
    destruct (setValueByPath_returns_object _ _ _ _ _ Hset) as [props ->].
    exists props. reflexivity.
  - left. now rewrite (handleSave_failure w _ _ Hpath Hsteps).
Qed.

Lemma controls_write_an_object_witness :
  let node := {| path := Some [Index (Double.of_Z 0)]; text := [] |} in
  let w := {| Modal.selectedNode := Some node;
              Modal.stored_json := "[1,2]";
              Modal.editValue := "9";
              Modal.editType := "number";
              Modal.isEditing := true;
              Modal.written := [];
              Modal.toasts := [];
              Modal.closed := false |} in
  exists w',
    Editor.use Editor.Save w = Some w'
    /\ Modal.written w'
       = [(Some ("{" ++ Stringify.line_break ++ "  " ++ dq ++ "0" ++ dq ++ ": 9,"
                 ++ Stringify.line_break ++ "  " ++ dq ++ "1" ++ dq ++ ": 2"
                 ++ Stringify.line_break ++ "}")%string, true)]
    /\ (Modal.written w' = Modal.written w
        \/ exists props,
             Modal.written w'
             = (Modal.written w ++ [(JSON_stringify (VObject props) 2, true)])%list).
Proof.
  intros node w. eexists. split; [reflexivity |]. split; [vm_compute; reflexivity |].
  apply (controls_write_an_object w _ Editor.Save). reflexivity.
Defined.

(** ** The edit draft *)

(** X14. Seeding the edit fields from a first row that is a string, a
    boolean or null, and coercing them unchanged, gives back the value of
    the row. *)
Theorem seed_then_coerce (node : NodeData) (row : NodeRow) (rest : list NodeRow)
    (d : Editor.Draft) :
  text node = row :: rest ->
  plainly_typed row = true ->
  parseJsonValue (Editor.editValue (Editor.seed (Some node) d))
                 (Editor.editType (Editor.seed (Some node) d))
  = Return (value row).
Proof.
  intros Htext Htyped. unfold Editor.seed. rewrite Htext. simpl.
  unfold plainly_typed in Htyped.
  destruct (type row), (value row) as [| | b | n | s | l | props];
    try discriminate; try reflexivity.
  destruct b; reflexivity.
Qed.

Lemma seed_then_coerce_witness :
  let row := {| key := Some "active"; value := VBoolean true; type := boolean_type |} in
  let node := {| path := Some [Key "flags"]; text := [row] |} in
  let d := {| Editor.editKey := ""; Editor.editValue := ""; Editor.editType := "string" |} in
  plainly_typed row = true
  /\ Editor.seed (Some node) d
     = {| Editor.editKey := "active"; Editor.editValue := "true";
          Editor.editType := "boolean" |}
  /\ parseJsonValue (Editor.editValue (Editor.seed (Some node) d))
                    (Editor.editType (Editor.seed (Some node) d))
     = Return (VBoolean true).
Proof.
  intros row node d. split; [reflexivity |]. split; [reflexivity |].
  apply (seed_then_coerce node row [] d); reflexivity.
Defined.

(** X15. When the first row of the node is of type array or object, the
    seeded type is none of the four that a coercion knows, and the seeded
    fields are coerced to a string: the text of the value of the row, the
    empty string when the row has no value. *)
Theorem seed_container_row_coerces_to_string (node : NodeData) (row : NodeRow)
    (rest : list NodeRow) (d : Editor.Draft) :
  text node = row :: rest ->
  is_array (type row) || is_object (type row) = true ->
  parseJsonValue (Editor.editValue (Editor.seed (Some node) d))
                 (Editor.editType (Editor.seed (Some node) d))
  = Return (VString (Editor.text_or_empty (value row))).
Proof.
  intros Htext Hkind. unfold Editor.seed. rewrite Htext. simpl.
  destruct (type row); try discriminate; reflexivity.
Qed.

Lemma seed_container_row_coerces_to_string_witness :
  let row := {| key := Some "tags"; value := VUndefined; type := array_type |} in
  let node := {| path := Some [Key "customer"]; text := [row] |} in
  let d := {| Editor.editKey := ""; Editor.editValue := ""; Editor.editType := "string" |} in
  is_array (type row) || is_object (type row) = true
  /\ parseJsonValue (Editor.editValue (Editor.seed (Some node) d))
                    (Editor.editType (Editor.seed (Some node) d))
     = Return (VString "").
Proof.
  intros row node d. split; [reflexivity |].
  apply (seed_container_row_coerces_to_string node row [] d); reflexivity.
Defined.

(** ** More on the store *)

(** X16. On a path that is present, [setValueByPath] creates one cell for
    each segment of the path and no other: the copy is along the spine
    only, whatever the size of the document. *)
Theorem store_setValueByPath_one_cell_per_segment (p : list segment) :
  forall (st : Store.store) (D v : Store.sval),
    Store.present st D p = true ->
    exists r,
      Store.setValueByPath st D p v = Return r
      /\ List.length (fst r) = (List.length st + List.length p)%nat.
Proof.
  induction p as [| key rest IH]; intros st D v Hp.
  - eexists. split; [reflexivity |]. simpl. lia.
  - simpl in Hp.
    destruct (Store.own st D (ToPropertyKey key)) as [child |] eqn:Eown;
      [| discriminate].
    destruct (store_own_container _ _ _ _ Eown) as [Hnn _].
    destruct rest as [| next more].
    + eexists. split; [reflexivity |].
      unfold Store.spread_with, Store.alloc. simpl. rewrite length_app. simpl. lia.
    + destruct (IH st child v Hp) as [inner [Einner Hlen]].
      rewrite store_setValueByPath_deeper. unfold Store.get. rewrite Hnn. cbn [bind].
      rewrite (store_own_get_property _ _ _ _ Eown).
      unfold Store.or_empty_object.
      rewrite (store_present_truthy _ _ (next :: more) Hp) by discriminate.
      cbn [fst snd]. rewrite Einner. cbn [bind].
      eexists. split; [reflexivity |].
      unfold Store.spread_with, Store.alloc. cbn [fst].
      rewrite length_app, Hlen. simpl. lia.
Qed.

Lemma store_setValueByPath_one_cell_per_segment_witness :
  let st := [Store.ArrayCell [Store.SString "x"; Store.SString "y"];
             Store.ObjectCell [("name", Store.SString "Ada"); ("tags", Store.SRef 0)];
             Store.ObjectCell [("customer", Store.SRef 1)]] in
  let p := [Key "customer"; Key "name"] in
  Store.present st (Store.SRef 2) p = true
  /\ exists r,
       Store.setValueByPath st (Store.SRef 2) p (Store.SString "Grace") = Return r
       /\ List.length (fst r) = (List.length st + List.length p)%nat.
Proof.
  intros st p. split; [reflexivity |].
  apply (store_setValueByPath_one_cell_per_segment p st (Store.SRef 2)
           (Store.SString "Grace")).
  reflexivity.
Defined.

(** X17. [setValueByPath] never writes to what it was given: every cell
    of the store is afterwards at its address as it was, and every value
    of the store has the tree it had. *)
Theorem store_setValueByPath_keeps_the_input (st : Store.store) (obj : Store.sval)
    (p : list segment) (value : Store.sval) (r : Store.store * Store.sval) :
  Store.setValueByPath st obj p value = Return r ->
  (forall a c, nth_error st a = Some c -> nth_error (fst r) a = Some c)
  /\ (forall v, Store.below (List.length st) v = true ->
                Store.tree (fst r) v = Store.tree st v).
Proof.
  intros H. destruct (store_setValueByPath_extends _ _ _ _ _ H) as [ext ->].
  split.
  - intros a c Hc. now apply nth_error_extends.
  - intros v Hv. now apply tree_extends.
Qed.

Lemma store_setValueByPath_keeps_the_input_witness :
  let st := [Store.ArrayCell [Store.SNumber (Double.of_Z 1)];
             Store.ObjectCell [("tags", Store.SRef 0)]] in
  let r := ((st ++ [Store.ObjectCell [("0", Store.SNull)];
                   Store.ObjectCell [("tags", Store.SRef 2)]])%list,
            Store.SRef 3) in
  Store.setValueByPath st (Store.SRef 1) [Key "tags"; Index (Double.of_Z 0)] Store.SNull
  = Return r
  /\ (forall a c, nth_error st a = Some c -> nth_error (fst r) a = Some c)
  /\ (forall v, Store.below (List.length st) v = true ->
                Store.tree (fst r) v = Store.tree st v).
Proof.
  intros st r. split; [reflexivity |].
  apply (store_setValueByPath_keeps_the_input st (Store.SRef 1)
           [Key "tags"; Index (Double.of_Z 0)] Store.SNull r).
  reflexivity.
Defined.

Lemma store_getValueByPath_tree_witness :
  let st := [Store.ArrayCell [Store.SString "x"; Store.SString "y"];
             Store.ObjectCell [("name", Store.SString "Ada"); ("tags", Store.SRef 0)];
             Store.ObjectCell [("customer", Store.SRef 1)]] in
  let p := [Key "customer"; Key "tags"] in
  Store.ordered st = true
  /\ Store.below (List.length st) (Store.SRef 2) = true
  /\ Store.getValueByPath st (Store.SRef 2) p = Store.SRef 0
  /\ Store.below (List.length st) (Store.getValueByPath st (Store.SRef 2) p) = true
  /\ Store.tree st (Store.getValueByPath st (Store.SRef 2) p)
     = getValueByPath (Store.tree st (Store.SRef 2)) p.
Proof.
  intros st p. split; [reflexivity |]. split; [reflexivity |]. split; [reflexivity |].
  apply (store_getValueByPath_tree st p eq_refl (Store.SRef 2)). reflexivity.
Defined.

(** X18. Replacing at a key that an object has keeps the keys of the
    object and their order: only the value of that key changes. *)
Theorem setValueByPath_keeps_key_order (props : properties) (key : segment)
    (rest : list segment) (value updated old : jsval) :
  lookup (ToPropertyKey key) props = Some old ->
  setValueByPath (VObject props) (key :: rest) value = Return updated ->
  exists props',
    updated = VObject props'
    /\ map fst props' = map fst props
    /\ forall k, k <> ToPropertyKey key -> lookup k props' = lookup k props.
Proof.
  intros Hold H.
  destruct (setValueByPath_shape _ _ _ _ _ H) as [x ->].
  unfold spread_with. simpl own_entries.
  exists (define_property props (ToPropertyKey key) x).
  split; [reflexivity |]. split.
  - unfold define_property. rewrite Hold. apply keys_overwrite.
  - intros k Hk. now apply lookup_define_other.
Qed.

Lemma setValueByPath_keeps_key_order_witness :
  let props := [("7", VNull); ("name", VString "Ada"); ("tags", VArray [])] in
  lookup (ToPropertyKey (Key "name")) props = Some (VString "Ada")
  /\ setValueByPath (VObject props) [Key "name"] (VString "Grace")
     = Return (VObject [("7", VNull); ("name", VString "Grace"); ("tags", VArray [])])
  /\ exists props',
       VObject [("7", VNull); ("name", VString "Grace"); ("tags", VArray [])]
       = VObject props'
       /\ map fst props' = map fst props
       /\ forall k, k <> ToPropertyKey (Key "name") -> lookup k props' = lookup k props.
Proof.
  intros props. split; [reflexivity |]. split; [reflexivity |].
  apply (setValueByPath_keeps_key_order props (Key "name") [] (VString "Grace")
           _ (VString "Ada")); reflexivity.
Defined.
